(** * preserialize: a (possibly cyclic) object graph to a simple tree and back

    A shallow embedding of [preserialize/__init__.py] and
    [preserialize/json.py].

    - A Python [str] is a [string]; a character is an [ascii].  The regular
      expression classes [\d] and [\w] are those of the ASCII range.
    - The object graph lives in a heap ([list object], a location is an
      index); identity of objects ([id(obj)], [is]) is equality of
      locations.
    - The wire tree built by the encoder is an inductive tree whose leaves
      are the objects that pass through unchanged.
    - The two traversals are generators driven by a trampoline; they are
      embedded as recursive functions on a fuel argument that bounds the
      nesting depth of the walk. *)

From Stdlib Require Import ZArith Ascii String List Lia.
From Stdlib Require Import DecimalString Decimal DecimalZ.
From Stdlib Require Import Floats.SpecFloat.
From stdpp Require Import base option list gmap strings fin_maps.

(** ** Characters, identifiers and type names *)

Module Str.

Local Open Scope string_scope.

(** [\d] of the pattern language. *)
Definition is_digit (c : ascii) : bool :=
  let n := nat_of_ascii c in (48 <=? n)%nat && (n <=? 57)%nat.

Definition is_alpha (c : ascii) : bool :=
  let n := nat_of_ascii c in
  ((65 <=? n)%nat && (n <=? 90)%nat) || ((97 <=? n)%nat && (n <=? 122)%nat).

(** [\w] of the pattern language: letters, digits and the underscore. *)
Definition is_word (c : ascii) : bool :=
  is_alpha c || is_digit c || Ascii.eqb c "_"%char.

(** [[^\d\W]]: a word character that is not a digit. *)
Definition is_ident_start (c : ascii) : bool :=
  is_word c && negb (is_digit c).

Fixpoint all_chars (p : ascii -> bool) (s : string) : bool :=
  match s with
  | EmptyString => true
  | String c s' => p c && all_chars p s'
  end.

Fixpoint mem_char (c : ascii) (s : string) : bool :=
  match s with
  | EmptyString => false
  | String d s' => Ascii.eqb c d || mem_char c s'
  end.

(** [str.lower()]. *)
Definition lower_char (c : ascii) : ascii :=
  let n := nat_of_ascii c in
  if (65 <=? n)%nat && (n <=? 90)%nat then ascii_of_nat (n + 32) else c.

Fixpoint lower (s : string) : string :=
  match s with
  | EmptyString => EmptyString
  | String c s' => String (lower_char c) (lower s')
  end.

Fixpoint is_prefix (p s : string) : bool :=
  match p, s with
  | EmptyString, _ => true
  | String a p', String b s' => Ascii.eqb a b && is_prefix p' s'
  | String _ _, EmptyString => false
  end.

(** [s.replace(old, new)]: the non-overlapping occurrences of [old],
    leftmost first.  [skip] counts the characters of a matched occurrence
    that are still to be dropped. *)
Fixpoint replace_from (old new s : string) (skip : nat) : string :=
  match s with
  | EmptyString => EmptyString
  | String c s' =>
      match skip with
      | S k => replace_from old new s' k
      | O =>
          if is_prefix old s
          then new ++ replace_from old new s' (String.length old - 1)
          else String c (replace_from old new s' 0)
      end
  end.

Fixpoint intersperse (new s : string) : string :=
  match s with
  | EmptyString => new
  | String c s' => new ++ String c (intersperse new s')
  end.

Definition replace (old new s : string) : string :=
  match old with
  | EmptyString => intersperse new s
  | _ => replace_from old new s 0
  end.

(** [s.split(sep)] for a one-character separator. *)
Fixpoint split (sep : ascii) (s : string) : list string :=
  match s with
  | EmptyString => [EmptyString]
  | String c s' =>
      if Ascii.eqb c sep then EmptyString :: split sep s'
      else match split sep s' with
           | [] => [String c EmptyString]
           | p :: ps => String c p :: ps
           end
  end.

Definition char_str (c : ascii) : string := String c EmptyString.

End Str.

(** [re.fullmatch(IDENTIFIER_PATTERN, s)]: a word character that is not a
    digit, then any number of word characters. *)
Definition is_identifier (s : string) : bool :=
  match s with
  | EmptyString => false
  | String c s' => Str.is_ident_start c && Str.all_chars Str.is_word s'
  end.

(** The language of the tail of [TYPE_NAME_PATTERN], an optional identifier
    followed by any number of dot-identifier groups: the pieces between the
    dots are identifiers, except that the first piece may be empty. *)
Definition is_dotted_name (s : string) : bool :=
  match Str.split "."%char s with
  | [] => false
  | p :: ps => (String.eqb p EmptyString || is_identifier p) && forallb is_identifier ps
  end.

(** [re.fullmatch(TYPE_NAME_PATTERN.format(escape_char=escape_char), s)]:
    an optional escape character in front of a dotted name.  The empty
    string matches. *)
Definition is_type_name (escape_char : ascii) (s : string) : bool :=
  is_dotted_name s ||
  match s with
  | String c s' => Ascii.eqb c escape_char && is_dotted_name s'
  | EmptyString => false
  end.

(** [DATA], the empty string: the key of the positional arguments. *)
Definition DATA : string := EmptyString.

(** ** Exceptions and outcomes *)

(** The messages of [PreserializeError]. *)
Inductive pre_message : Type :=
| CannotUseAsTypeName (name : string)
| NotAValidKeyName (key : string)
| NotImplementedMessage.

(** The exceptions of the module, of [preserialize.json], of the JSON
    pointer library and the built-in ones the traversals can meet.
    [UnregisteredTypeError] is a subclass of [PreserializeError]. *)
Inductive exn : Type :=
| PreserializeError (m : pre_message)
| UnregisteredTypeError
| JsonReferenceError
| JsonPointerException
| NotImplementedException
| KeyError
| IndexError
| TypeError
| AttributeError
| ValueError.

(** What a call does: it returns, it raises, the walk is nested deeper than
    the fuel, or it leaves the part of Python that is embedded here (a call
    of a user-defined initialiser, a subscript on an opaque object). *)
Inductive outcome (A : Type) : Type :=
| Ok (a : A)
| Raise (e : exn)
| OutOfFuel
| Unmodelled.
Arguments Ok {A} a.
Arguments Raise {A} e.
Arguments OutOfFuel {A}.
Arguments Unmodelled {A}.

Definition obind {A B} (m : outcome A) (k : A -> outcome B) : outcome B :=
  match m with
  | Ok a => k a
  | Raise e => Raise e
  | OutOfFuel => OutOfFuel
  | Unmodelled => Unmodelled
  end.

Definition is_ok {A} (m : outcome A) : bool :=
  match m with Ok _ => true | _ => false end.

Definition terminates {A} (m : outcome A) : Prop := m <> OutOfFuel.

Declare Scope outcome_scope.
Delimit Scope outcome_scope with outcome.
Notation "'let*' x := m 'in' k" := (obind m (fun x => k))
  (at level 10, x pattern, m at level 100, k at level 200) : outcome_scope.
Local Open Scope outcome_scope.

(** A loop [for i, x in enumerate(xs)] whose body can fail and threads a
    state: the index starts at [i]. *)
Fixpoint for_enumerate {X St} (body : nat -> X -> St -> outcome St)
    (i : nat) (xs : list X) (s : St) : outcome St :=
  match xs with
  | [] => Ok s
  | x :: xs' => let* s' := body i x s in for_enumerate body (S i) xs' s'
  end.

Definition for_each {X St} (body : X -> St -> outcome St)
    (xs : list X) (s : St) : outcome St :=
  for_enumerate (fun _ => body) 0 xs s.

(** ** Key encoders *)

(** [Encoder]: a pair of string transforms; [encode] can reject its
    argument. *)
Record Encoder : Type := {
  encode : string -> outcome string;
  decode : string -> string
}.

(** The base class: both directions are the identity. *)
Definition IdentityEncoder : Encoder :=
  {| encode := fun s => Ok s; decode := fun s => s |}.

(** [ComposedEncoder(encoder_b, encoder_a)]: right to left. *)
Definition ComposedEncoder (encoder_b encoder_a : Encoder) : Encoder :=
  {| encode := fun s => let* t := encode encoder_a s in encode encoder_b t;
     decode := fun s => decode encoder_a (decode encoder_b s) |}.

(** [self.compose(encoder)]. *)
Definition compose (self encoder : Encoder) : Encoder :=
  ComposedEncoder self encoder.

Definition double_char (char : ascii) : string :=
  String char (String char EmptyString).

(** [IdentifierEscapeEncoder(char)]. *)
Definition IdentifierEscapeEncoder (char : ascii) : Encoder :=
  {| encode := fun s =>
       if is_identifier s
       then Ok (if String.eqb s DATA then Str.char_str char
                else Str.replace (Str.char_str char) (double_char char) s)
       else Raise (PreserializeError (NotAValidKeyName s));
     decode := fun s =>
       if String.eqb s (Str.char_str char) then DATA
       else Str.replace (double_char char) (Str.char_str char) s |}.

(** ** The object graph *)

Definition loc : Type := nat.

(** A version identifier: an [int] or a [str]. *)
Inductive ver : Type := VerInt (z : Z) | VerStr (s : string).

(** The runtime types the embedding knows: the built-in ones of
    [JSON_TYPES] and [list], and user classes, named by [__name__]. *)
Inductive pytype : Type :=
| TInt | TFloat | TStr | TBool | TNone
| TList | TTuple | TSet | TDict
| TClass (name : string).

(** Primitive values.  A [float] is its IEEE 754 datum. *)
Inductive prim : Type :=
| PInt (z : Z)
| PFloat (f : spec_float)
| PStr (s : string)
| PBool (b : bool)
| PNone.

(** Heap objects.  A [set] lists its members in iteration order, a [dict]
    its items in insertion order, an instance its [vars()] in insertion
    order. *)
Inductive object : Type :=
| OPrim (p : prim)
| OList (items : list loc)
| OTuple (items : list loc)
| OSet (items : list loc)
| ODict (items : list (loc * loc))
| OInstance (cls : string) (attrs : list (string * loc)).

Definition heap : Type := list object.

Definition prim_type (p : prim) : pytype :=
  match p with
  | PInt _ => TInt
  | PFloat _ => TFloat
  | PStr _ => TStr
  | PBool _ => TBool
  | PNone => TNone
  end.

(** [type(obj)]. *)
Definition type_of (o : object) : pytype :=
  match o with
  | OPrim p => prim_type p
  | OList _ => TList
  | OTuple _ => TTuple
  | OSet _ => TSet
  | ODict _ => TDict
  | OInstance c _ => TClass c
  end.

(** [cls.__name__]. *)
Definition type_name (t : pytype) : string :=
  match t with
  | TInt => "int"
  | TFloat => "float"
  | TStr => "str"
  | TBool => "bool"
  | TNone => "NoneType"
  | TList => "list"
  | TTuple => "tuple"
  | TSet => "set"
  | TDict => "dict"
  | TClass n => n
  end.

(** A new object gets the next free location. *)
Definition alloc (o : object) (h : heap) : loc * heap :=
  (length h, h ++ [o]).

#[global] Instance ver_eq_dec : EqDecision ver.
Proof. solve_decision. Defined.

#[global] Instance pytype_eq_dec : EqDecision pytype.
Proof. solve_decision. Defined.

#[global] Instance ver_countable : Countable ver.
Proof.
  refine (inj_countable'
            (fun v => match v with VerInt z => inl z | VerStr s => inr s end)
            (fun x => match x with inl z => VerInt z | inr s => VerStr s end) _).
  by intros [].
Defined.

Definition pytype_code (t : pytype) : nat + string :=
  match t with
  | TInt => inl 0 | TFloat => inl 1 | TStr => inl 2 | TBool => inl 3
  | TNone => inl 4 | TList => inl 5 | TTuple => inl 6 | TSet => inl 7
  | TDict => inl 8 | TClass n => inr n
  end.

Definition pytype_decode (x : nat + string) : pytype :=
  match x with
  | inl 0 => TInt | inl 1 => TFloat | inl 2 => TStr | inl 3 => TBool
  | inl 4 => TNone | inl 5 => TList | inl 6 => TTuple | inl 7 => TSet
  | inl _ => TDict | inr n => TClass n
  end.

#[global] Instance pytype_countable : Countable pytype.
Proof.
  refine (inj_countable' pytype_code pytype_decode _).
  by intros [].
Defined.

(** ** Deconstructors *)

(** The four deconstructor classes of the module. *)
Inductive deconstructor_cls : Type :=
| BaseDeconstructor
| IterableDeconstructor
| DictDeconstructor
| InstanceDeconstructor.

(** A [Deconstructor] instance: the fields set by [__init__], and its
    class. *)
Record Deconstructor : Type := {
  dc_class : deconstructor_cls;
  dc_cls : pytype;
  dc_name : string;
  dc_version : option ver;
  dc_ignore : list string
}.

(** The keyword arguments of a registration. *)
Record options : Type := {
  opt_name : option string;
  opt_version : option ver;
  opt_ignore : list string
}.

Definition no_options : options :=
  {| opt_name := None; opt_version := None; opt_ignore := [] |}.

(** [Deconstructor.__init__]. *)
Definition Deconstructor_init (k : deconstructor_cls) (cls : pytype)
    (escape_char : ascii) (kwargs : options) : outcome Deconstructor :=
  let name := match opt_name kwargs with
              | None => Str.lower (type_name cls)
              | Some n => n
              end in
  if is_type_name escape_char name
  then Ok {| dc_class := k; dc_cls := cls; dc_name := name;
             dc_version := opt_version kwargs;
             dc_ignore := opt_ignore kwargs |}
  else Raise (PreserializeError (CannotUseAsTypeName name)).

(** ** Paths and wire trees *)

(** A key of a path: an index or a mapping key. *)
Inductive pkey : Type := KInt (z : Z) | KStr (s : string).

Definition path : Type := list pkey.

#[global] Instance pkey_eq_dec : EqDecision pkey.
Proof. solve_decision. Defined.

#[global] Instance pkey_countable : Countable pkey.
Proof.
  refine (inj_countable'
            (fun k => match k with KInt z => inl z | KStr s => inr s end)
            (fun x => match x with inl z => KInt z | inr s => KStr s end) _).
  by intros [].
Defined.

(** The wire tree.  [WObj l] is the object at [l], passed through as
    itself; [WLit p] is a primitive written by the encoder (a type tag, a
    version, a pointer) or by whoever built the tree; a mapping keeps its
    keys in insertion order. *)
#[warnings="-register-all"]
Inductive wire : Type :=
| WObj (l : loc)
| WLit (p : prim)
| WList (items : list wire)
| WMap (entries : list (string * wire)).

Definition WStr (s : string) : wire := WLit (PStr s).

(** [data.get(key)] on a mapping. *)
Fixpoint wmap_get (key : string) (entries : list (string * wire)) : option wire :=
  match entries with
  | [] => None
  | (k, v) :: rest => if String.eqb k key then Some v else wmap_get key rest
  end.

(** [data[key] = value] on a mapping: an existing key keeps its place. *)
Fixpoint wmap_set (key : string) (value : wire) (entries : list (string * wire))
  : list (string * wire) :=
  match entries with
  | [] => [(key, value)]
  | (k, v) :: rest =>
      if String.eqb k key then (k, value) :: rest
      else (k, v) :: wmap_set key value rest
  end.

(** The primitive a leaf stands for. *)
Definition wire_prim (h : heap) (w : wire) : option prim :=
  match w with
  | WLit p => Some p
  | WObj l => match h !! l with Some (OPrim p) => Some p | _ => None end
  | _ => None
  end.

(** ** Decimal numerals: [str(i)] and [int(s)] *)

Module Dec.

Local Open Scope string_scope.

(** [str(z)] for an [int]. *)
Definition str_of_Z (z : Z) : string := NilZero.string_of_int (Z.to_int z).

Definition digit_of (c : ascii) (d : uint) : option uint :=
  match c with
  | "0"%char => Some (D0 d) | "1"%char => Some (D1 d)
  | "2"%char => Some (D2 d) | "3"%char => Some (D3 d)
  | "4"%char => Some (D4 d) | "5"%char => Some (D5 d)
  | "6"%char => Some (D6 d) | "7"%char => Some (D7 d)
  | "8"%char => Some (D8 d) | "9"%char => Some (D9 d)
  | _ => None
  end.

(** The digits of a numeral; one underscore may sit between two digits.
    [after_digit] tells whether the previous character was a digit. *)
Fixpoint digits (s : string) (after_digit : bool) : option uint :=
  match s with
  | EmptyString => if after_digit then Some Nil else None
  | String c s' =>
      if Ascii.eqb c "_"%char
      then (if after_digit
            then match s' with
                 | EmptyString => None
                 | _ => digits s' false
                 end
            else None)
      else match digits s' true with
           | Some d => digit_of c d
           | None => None
           end
  end.

(** The characters [int] strips on both sides. *)
Definition is_space (c : ascii) : bool :=
  let n := nat_of_ascii c in
  ((9 <=? n)%nat && (n <=? 13)%nat) || ((28 <=? n)%nat && (n <=? 32)%nat).

Fixpoint lstrip (s : string) : string :=
  match s with
  | String c s' => if is_space c then lstrip s' else s
  | EmptyString => EmptyString
  end.

Fixpoint rstrip (s : string) : string :=
  match s with
  | EmptyString => EmptyString
  | String c s' =>
      match rstrip s' with
      | EmptyString => if is_space c then EmptyString else String c EmptyString
      | t => String c t
      end
  end.

(** [int(s)], or [None] where it raises [ValueError]. *)
Definition parse_int (s : string) : option Z :=
  match rstrip (lstrip s) with
  | String "-"%char t =>
      match digits t false with
      | Some d => Some (- Z.of_uint d)%Z
      | None => None
      end
  | String "+"%char t =>
      match digits t false with
      | Some d => Some (Z.of_uint d)
      | None => None
      end
  | t =>
      match digits t false with
      | Some d => Some (Z.of_uint d)
      | None => None
      end
  end.

End Dec.

(** [cast_int(s)]: the [int] that [s] spells, else [s]. *)
Definition cast_int (s : string) : pkey :=
  match Dec.parse_int s with
  | Some z => KInt z
  | None => KStr s
  end.

(** [str(part)] for a key of a path. *)
Definition str_of_pkey (k : pkey) : string :=
  match k with
  | KInt z => Dec.str_of_Z z
  | KStr s => s
  end.

(** ** JSON pointers (the [jsonpointer] library) *)

Module JsonPointer.

Local Open Scope string_scope.

Definition escape (s : string) : string :=
  Str.replace "/" "~1" (Str.replace "~" "~0" s).

Definition unescape (s : string) : string :=
  Str.replace "~0" "~" (Str.replace "~1" "/" s).

(** A tilde that is followed by neither 0 nor 1. *)
Fixpoint invalid_escape (s : string) : bool :=
  match s with
  | EmptyString => false
  | String "~"%char EmptyString => true
  | String "~"%char (String c _ as s') =>
      negb (Ascii.eqb c "0"%char || Ascii.eqb c "1"%char) || invalid_escape s'
  | String _ s' => invalid_escape s'
  end.

(** [JsonPointer.from_parts(parts).path]. *)
Definition path_of_parts (parts : list pkey) : string :=
  String.concat EmptyString (map (fun k => "/" ++ escape (str_of_pkey k)) parts).

(** [JsonPointer(pointer).parts]. *)
Definition parts (pointer : string) : outcome (list string) :=
  if invalid_escape pointer then Raise JsonPointerException
  else match Str.split "/"%char pointer with
       | EmptyString :: ps => Ok (map unescape ps)
       | _ => Raise JsonPointerException
       end.

End JsonPointer.

(** ** Link managers *)

(** What a subclass of [LinkManager] defines: the key and the reference
    syntax.  The label hooks are those of the base class. *)
Record LinkManagerCls : Type := {
  KEY : string;
  is_ref : wire -> outcome bool;
  make_ref : path -> outcome wire;
  ref_path : heap -> wire -> outcome (list string)
}.

(** [LinkManager] itself: the reference syntax is not implemented. *)
Definition BaseLinkManager : LinkManagerCls :=
  {| KEY := EmptyString;
     is_ref := fun _ => Raise NotImplementedException;
     make_ref := fun _ => Raise NotImplementedException;
     ref_path := fun _ _ => Raise NotImplementedException |}.

(** [cls.escape_char()]: the first character of [KEY]. *)
Definition escape_char_of (cls : LinkManagerCls) : outcome ascii :=
  match KEY cls with
  | String c _ => Ok c
  | EmptyString => Raise IndexError
  end.

(** The state of a [LinkManager] instance. *)
Record LinkManager : Type := {
  _path_cache : gmap loc path;
  _object_cache : gmap path loc;
  _links : list (path * (nat * list path));
  _parent_deconstructors : gmap path (option Deconstructor)
}.

(** [LinkManager.__init__]. *)
Definition LinkManager_init : LinkManager :=
  {| _path_cache := ∅; _object_cache := ∅; _links := [];
     _parent_deconstructors := ∅ |}.

Definition path_cache_add (obj : loc) (p : path) (lm : LinkManager) : LinkManager :=
  {| _path_cache := <[obj := p]> (_path_cache lm);
     _object_cache := _object_cache lm;
     _links := _links lm;
     _parent_deconstructors := _parent_deconstructors lm |}.

(** [None] stands for the [KeyError]. *)
Definition path_cache_get (obj : loc) (lm : LinkManager) : option path :=
  _path_cache lm !! obj.

Definition object_cache_add (p : path) (obj : loc) (lm : LinkManager) : LinkManager :=
  {| _path_cache := _path_cache lm;
     _object_cache := <[p := obj]> (_object_cache lm);
     _links := _links lm;
     _parent_deconstructors := _parent_deconstructors lm |}.

Definition object_cache_get (p : path) (lm : LinkManager) : option loc :=
  _object_cache lm !! p.

Fixpoint links_mem (dest : path) (links : list (path * (nat * list path))) : bool :=
  match links with
  | [] => false
  | (d, _) :: rest => bool_decide (d = dest) || links_mem dest rest
  end.

Fixpoint links_append (dest source : path) (links : list (path * (nat * list path)))
  : list (path * (nat * list path)) :=
  match links with
  | [] => []
  | (d, (i, sources)) :: rest =>
      if bool_decide (d = dest) then (d, (i, sources ++ [source])) :: rest
      else (d, (i, sources)) :: links_append dest source rest
  end.

(** [add(source, dest)]. *)
Definition add (source dest : path) (lm : LinkManager) : LinkManager :=
  let links := _links lm in
  let links := if links_mem dest links then links
               else links ++ [(dest, (length links, []))] in
  {| _path_cache := _path_cache lm;
     _object_cache := _object_cache lm;
     _links := links_append dest source links;
     _parent_deconstructors := _parent_deconstructors lm |}.

Definition set_source_parent_deconstructor (p : path)
    (deconstructor : option Deconstructor) (lm : LinkManager) : LinkManager :=
  {| _path_cache := _path_cache lm;
     _object_cache := _object_cache lm;
     _links := _links lm;
     _parent_deconstructors := <[p := deconstructor]> (_parent_deconstructors lm) |}.

(** [label_destination] and [unlabel_destination] of the base class. *)
Definition label_destination (i : nat) (obj : wire) : wire := obj.
Definition unlabel_destination (obj : wire) : wire := obj.

(** The index a subscript [z] names in a sequence of length [n]. *)
Definition seq_index (n : nat) (z : Z) : option nat :=
  if (0 <=? z)%Z then (if (z <? Z.of_nat n)%Z then Some (Z.to_nat z) else None)
  else if (0 <=? z + Z.of_nat n)%Z then Some (Z.to_nat (z + Z.of_nat n))
  else None.

(** [data[key]] on a node of the tree. *)
Definition wire_subscript (data : wire) (key : pkey) : outcome wire :=
  match data, key with
  | WList items, KInt z =>
      match seq_index (length items) z with
      | Some i => match items !! i with Some w => Ok w | None => Raise IndexError end
      | None => Raise IndexError
      end
  | WList _, KStr _ => Raise TypeError
  | WMap entries, KStr s =>
      match wmap_get s entries with Some w => Ok w | None => Raise KeyError end
  | WMap _, KInt _ => Raise KeyError
  | WLit (PStr _), _ => Unmodelled
  | WLit _, _ => Raise TypeError
  | WObj _, _ => Unmodelled
  end.

(** [data[key] = value] on a node of the tree. *)
Definition wire_assign (data : wire) (key : pkey) (value : wire) : outcome wire :=
  match data, key with
  | WList items, KInt z =>
      match seq_index (length items) z with
      | Some i => Ok (WList (<[i := value]> items))
      | None => Raise IndexError
      end
  | WList _, KStr _ => Raise TypeError
  | WMap entries, KStr s => Ok (WMap (wmap_set s value entries))
  | WMap _, KInt _ => Unmodelled
  | WLit _, _ => Raise TypeError
  | WObj _, _ => Unmodelled
  end.

Section LinkManagerMethods.

Variable cls : LinkManagerCls.

(** [getitem(data, path)]. *)
Fixpoint getitem (data : wire) (p : path) : outcome wire :=
  match p with
  | [] => Ok data
  | key :: p' =>
      let* r := is_ref cls data in
      let data := if r then unlabel_destination data else data in
      let* data := wire_subscript data key in
      getitem data p'
  end.

(** [setitem(data, path, value)] for a path that is not empty.  The
    assignment is in place in the source; here the changed node is put back
    at every level. *)
Fixpoint setitem (data : wire) (p : path) (value : wire) : outcome wire :=
  match p with
  | [] => Raise IndexError
  | [key] =>
      let* r := is_ref cls data in
      let data := if r then unlabel_destination data else data in
      wire_assign data key value
  | key :: p' =>
      let* r := is_ref cls data in
      let data := if r then unlabel_destination data else data in
      let* child := wire_subscript data key in
      let* child' := setitem child p' value in
      wire_assign data key child'
  end.

(** [label_data(data)]. *)
Definition label_data (lm : LinkManager) (data : wire) : outcome wire :=
  for_each
    (fun '(dest, (i, _)) data =>
       match dest with
       | [] => Ok (label_destination i data)
       | _ =>
           let* d := getitem data dest in
           setitem data dest (label_destination i d)
       end)
    (_links lm) data.

End LinkManagerMethods.

(** ** JSON references ([preserialize.json]) *)

Definition JsonReference_is_ref (obj : wire) : outcome bool :=
  match obj with
  | WMap [(k, _)] => Ok (String.eqb k "$ref")
  | _ => Ok false
  end.

Definition JsonReference_make_ref (dest : path) : outcome wire :=
  Ok (WMap [("$ref", WStr (String "#" (JsonPointer.path_of_parts dest)))]).

Definition JsonReference_ref_path (h : heap) (ref : wire) : outcome (list string) :=
  match ref with
  | WMap entries =>
      match wmap_get "$ref" entries with
      | None => Raise KeyError
      | Some v =>
          match wire_prim h v with
          | Some (PStr (String "#" pointer)) => JsonPointer.parts pointer
          | Some (PStr _) => Raise JsonReferenceError
          | _ => Raise AttributeError
          end
      end
  | _ => Raise TypeError
  end.

Definition JsonReferenceLinkManager : LinkManagerCls :=
  {| KEY := "$ref";
     is_ref := JsonReference_is_ref;
     make_ref := JsonReference_make_ref;
     ref_path := JsonReference_ref_path |}.

(** ** Built-in behaviour the deconstructors rely on *)

Module Py.

Definition Z_of_bool (b : bool) : Z := if b then 1%Z else 0%Z.

(** [f == z] for a [float] and an [int]: exact. *)
Definition float_eq_int (f : spec_float) (z : Z) : bool :=
  match f with
  | S754_zero _ => (z =? 0)%Z
  | S754_finite s m e =>
      let v := if s then Z.neg m else Z.pos m in
      if (0 <=? e)%Z then (z =? v * 2 ^ e)%Z else (z * 2 ^ (- e) =? v)%Z
  | _ => false
  end.

(** [p == q] on primitives. *)
Definition prim_eqb (p q : prim) : bool :=
  match p, q with
  | PNone, PNone => true
  | PStr a, PStr b => String.eqb a b
  | PInt a, PInt b => (a =? b)%Z
  | PInt a, PBool b => (a =? Z_of_bool b)%Z
  | PBool a, PInt b => (Z_of_bool a =? b)%Z
  | PBool a, PBool b => Bool.eqb a b
  | PFloat f, PFloat g => SFeqb f g
  | PFloat f, PInt b => float_eq_int f b
  | PInt a, PFloat g => float_eq_int g a
  | PFloat f, PBool b => float_eq_int f (Z_of_bool b)
  | PBool a, PFloat g => float_eq_int g (Z_of_bool a)
  | _, _ => false
  end.

Fixpoint all2 {A} (f : A -> A -> outcome bool) (xs ys : list A) : outcome bool :=
  match xs, ys with
  | [], [] => Ok true
  | x :: xs', y :: ys' =>
      let* b := f x y in
      if b then all2 f xs' ys' else Ok false
  | _, _ => Ok false
  end.

(** [hash(obj)] succeeds: lists, sets and dicts are unhashable, a tuple is
    hashable when its members are, an instance hashes by identity. *)
Fixpoint hashable (fuel : nat) (h : heap) (l : loc) : outcome unit :=
  match fuel with
  | O => OutOfFuel
  | S n =>
      match h !! l with
      | None => Unmodelled
      | Some (OPrim _) => Ok tt
      | Some (OInstance _ _) => Ok tt
      | Some (OTuple items) => for_each (fun x _ => hashable n h x) items tt
      | Some _ => Raise TypeError
      end
  end.

(** Equality of two hashable objects, as a dict or set lookup sees it:
    identity first, then [==]; instances compare by identity. *)
Fixpoint key_eq (fuel : nat) (h : heap) (a b : loc) : outcome bool :=
  if (a =? b)%nat then Ok true
  else
    match fuel with
    | O => OutOfFuel
    | S n =>
        match h !! a, h !! b with
        | Some (OPrim p), Some (OPrim q) => Ok (prim_eqb p q)
        | Some (OTuple xs), Some (OTuple ys) => all2 (key_eq n h) xs ys
        | Some (OInstance _ _), Some _ => Ok false
        | Some _, Some (OInstance _ _) => Ok false
        | Some (OPrim _), Some (OTuple _) => Ok false
        | Some (OTuple _), Some (OPrim _) => Ok false
        | _, _ => Unmodelled
        end
    end.

(** [d[key] = value] on the items of a dict. *)
Fixpoint dict_set (fuel : nat) (h : heap) (key value : loc)
    (items : list (loc * loc)) : outcome (list (loc * loc)) :=
  match items with
  | [] => Ok [(key, value)]
  | (k, v) :: rest =>
      let* same := key_eq fuel h k key in
      if same then Ok ((k, value) :: rest)
      else let* rest' := dict_set fuel h key value rest in Ok ((k, v) :: rest')
  end.

Definition dict_setitem (fuel : nat) (h : heap) (key value : loc)
    (items : list (loc * loc)) : outcome (list (loc * loc)) :=
  let* _ := hashable fuel h key in
  dict_set fuel h key value items.

(** [s.add(x)] on the members of a set. *)
Fixpoint set_add (fuel : nat) (h : heap) (x : loc) (items : list loc)
  : outcome (list loc) :=
  match items with
  | [] => Ok [x]
  | y :: rest =>
      let* same := key_eq fuel h y x in
      if same then Ok (y :: rest)
      else let* rest' := set_add fuel h x rest in Ok (y :: rest')
  end.

(** [set(items)]. *)
Definition set_of (fuel : nat) (h : heap) (items : list loc) : outcome (list loc) :=
  for_each (fun x acc => let* _ := hashable fuel h x in set_add fuel h x acc)
           items [].

(** [dict(pairs)]: every element is a sequence of two members. *)
Definition dict_of (fuel : nat) (h : heap) (pairs : list loc)
  : outcome (list (loc * loc)) :=
  for_each
    (fun pr acc =>
       match h !! pr with
       | Some (OList [k; v]) | Some (OTuple [k; v]) => dict_setitem fuel h k v acc
       | Some (OList _) | Some (OTuple _) => Raise ValueError
       | Some (OPrim (PStr _)) | Some (OSet _) | Some (ODict _) => Unmodelled
       | Some _ => Raise TypeError
       | None => Unmodelled
       end)
    pairs [].

(** [cls.__new__(cls)]. *)
Definition new (cls : pytype) : object :=
  match cls with
  | TInt => OPrim (PInt 0)
  | TFloat => OPrim (PFloat (S754_zero false))
  | TStr => OPrim (PStr EmptyString)
  | TBool => OPrim (PBool false)
  | TNone => OPrim PNone
  | TList => OList []
  | TTuple => OTuple []
  | TSet => OSet []
  | TDict => ODict []
  | TClass c => OInstance c []
  end.

(** [cls(items)] where [items] is a list. *)
Definition call_on_list (fuel : nat) (cls : pytype) (items : list loc) (h : heap)
  : outcome object :=
  match cls with
  | TList => Ok (OList items)
  | TTuple => Ok (OTuple items)
  | TSet => let* s := set_of fuel h items in Ok (OSet s)
  | TDict => let* d := dict_of fuel h items in Ok (ODict d)
  | TBool => Ok (OPrim (PBool (negb (bool_decide (items = [])))))
  | TInt | TFloat | TNone => Raise TypeError
  | TStr | TClass _ => Unmodelled
  end.

(** [vars(obj)[key] = value] on the attributes of an instance. *)
Fixpoint attrs_set (key : string) (value : loc) (attrs : list (string * loc))
  : list (string * loc) :=
  match attrs with
  | [] => [(key, value)]
  | (k, v) :: rest =>
      if String.eqb k key then (k, value) :: rest
      else (k, v) :: attrs_set key value rest
  end.

(** [obj[key] = value] for a path key; a mapping key is a new [str] or
    [int] object. *)
Definition setitem (fuel : nat) (obj : loc) (key : pkey) (value : loc) (h : heap)
  : outcome heap :=
  match h !! obj with
  | None => Unmodelled
  | Some (OList items) =>
      match key with
      | KInt z =>
          match seq_index (length items) z with
          | Some i => Ok (<[obj := OList (<[i := value]> items)]> h)
          | None => Raise IndexError
          end
      | KStr _ => Raise TypeError
      end
  | Some (ODict items) =>
      let '(kl, h1) := alloc (OPrim (match key with
                                     | KInt z => PInt z
                                     | KStr s => PStr s
                                     end)) h in
      let* items' := dict_setitem fuel h1 kl value items in
      Ok (<[obj := ODict items']> h1)
  | Some _ => Raise TypeError
  end.

(** [vars(obj)[key] = value]. *)
Definition setvar (obj : loc) (key : pkey) (value : loc) (h : heap) : outcome heap :=
  match h !! obj with
  | None => Unmodelled
  | Some (OInstance c attrs) =>
      match key with
      | KStr s => Ok (<[obj := OInstance c (attrs_set s value attrs)]> h)
      | KInt _ => Unmodelled
      end
  | Some _ => Raise TypeError
  end.

End Py.

(** ** The deconstructor methods *)

Fixpoint kwargs_set (key : string) (value : loc) (kwargs : list (string * loc))
  : list (string * loc) :=
  match kwargs with
  | [] => [(key, value)]
  | (k, v) :: rest =>
      if String.eqb k key then (k, value) :: rest
      else (k, v) :: kwargs_set key value rest
  end.

(** The keys of a dict when each is a [str] that is an identifier. *)
Fixpoint identifier_items (h : heap) (items : list (loc * loc))
  : option (list (string * loc)) :=
  match items with
  | [] => Some []
  | (k, v) :: rest =>
      match h !! k with
      | Some (OPrim (PStr s)) =>
          if is_identifier s
          then match identifier_items h rest with
               | Some r => Some ((s, v) :: r)
               | None => None
               end
          else None
      | _ => None
      end
  end.

(** [list(list(item) for item in obj.items())]: a new two-element list per
    item. *)
Fixpoint item_lists (items : list (loc * loc)) (h : heap) : list loc * heap :=
  match items with
  | [] => ([], h)
  | (k, v) :: rest =>
      let '(l, h1) := alloc (OList [k; v]) h in
      let '(ls, h2) := item_lists rest h1 in
      (l :: ls, h2)
  end.

(** [deconstruct(obj)]: the positional arguments and the keyword
    arguments.  An absent part is the empty list: the caller only tests
    whether a part is empty. *)
Definition deconstruct (d : Deconstructor) (obj : loc) (h : heap)
  : outcome (list loc * list (string * loc) * heap) :=
  match h !! obj with
  | None => Unmodelled
  | Some o =>
      match dc_class d with
      | BaseDeconstructor => Ok ([], [], h)
      | IterableDeconstructor =>
          match o with
          | OList items | OTuple items | OSet items => Ok (items, [], h)
          | ODict items => Ok (items.*1, [], h)
          | OPrim (PStr _) => Unmodelled
          | OPrim _ | OInstance _ _ => Raise TypeError
          end
      | DictDeconstructor =>
          match o with
          | ODict items =>
              match identifier_items h items with
              | Some kwargs => Ok ([], kwargs, h)
              | None => let '(args, h') := item_lists items h in Ok (args, [], h')
              end
          | _ => Raise AttributeError
          end
      | InstanceDeconstructor =>
          match o with
          | OInstance _ attrs =>
              Ok ([], filter (fun kv => kv.1 ∉ dc_ignore d) attrs, h)
          | _ => Raise TypeError
          end
      end
  end.

(** [deconstructor.setattr(obj, key, value)]. *)
Definition setattr (fuel : nat) (d : Deconstructor) (obj : loc) (key : pkey)
    (value : loc) (h : heap) : outcome heap :=
  match dc_class d with
  | BaseDeconstructor => Raise (PreserializeError NotImplementedMessage)
  | IterableDeconstructor | DictDeconstructor => Py.setitem fuel obj key value h
  | InstanceDeconstructor => Py.setvar obj key value h
  end.

(** [Deconstructor.construct(args, kwargs)] of the base class, after the
    object has been made. *)
Definition populate (fuel : nat) (d : Deconstructor) (obj : loc)
    (kwargs : list (string * loc)) (h : heap) : outcome heap :=
  for_each (fun '(key, value) h => setattr fuel d obj (KStr key) value h) kwargs h.

(** [deconstructor.construct(args, kwargs)].  The sequence and dict classes
    repack [args] into one argument. *)
Definition construct (fuel : nat) (d : Deconstructor) (args : list loc)
    (kwargs : list (string * loc)) (h : heap) : outcome (loc * heap) :=
  let* o :=
    match dc_class d with
    | BaseDeconstructor | InstanceDeconstructor =>
        match args with
        | [] => Ok (Py.new (dc_cls d))
        | _ => Unmodelled
        end
    | IterableDeconstructor | DictDeconstructor =>
        Py.call_on_list fuel (dc_cls d) args h
    end in
  let '(obj, h1) := alloc o h in
  let* h2 := populate fuel d obj kwargs h1 in
  Ok (obj, h2).

(** ** The preserializer *)

Record Preserializer : Type := {
  link_manager_cls : LinkManagerCls;
  escape_char : ascii;
  encoder : Encoder;
  type_key : string;
  version_key : string;
  deconstructors : gmap (pytype * option ver) (option Deconstructor);
  versions : gmap pytype ver;
  types : gmap (string * option ver) pytype
}.

(** A row of a table of types: one, two or three columns. *)
Inductive row : Type :=
| Row1 (cls : pytype)
| Row2 (cls : pytype) (deconstructor_cls : option deconstructor_cls)
| Row3 (cls : pytype) (deconstructor_cls : option deconstructor_cls)
       (kwargs : options).

(** [register(cls, deconstructor_cls, **kwargs)]. *)
Definition register (self : Preserializer) (cls : pytype)
    (deconstructor_cls : option deconstructor_cls) (kwargs : options)
  : outcome Preserializer :=
  let* (deconstructor, version, types') :=
    match deconstructor_cls with
    | Some k =>
        let* d := Deconstructor_init k cls (escape_char self) kwargs in
        Ok (Some d, dc_version d,
            <[(dc_name d, dc_version d) := cls]> (types self))
    | None => Ok (None, None, types self)
    end in
  Ok {| link_manager_cls := link_manager_cls self;
        escape_char := escape_char self;
        encoder := encoder self;
        type_key := type_key self;
        version_key := version_key self;
        deconstructors := <[(cls, version) := deconstructor]> (deconstructors self);
        versions := match version with
                    | Some v => <[cls := v]> (versions self)
                    | None => versions self
                    end;
        types := types' |}.

(** [register_types(types)]. *)
Definition register_row (r : row) (self : Preserializer) : outcome Preserializer :=
  match r with
  | Row1 cls => register self cls None no_options
  | Row2 cls k => register self cls k no_options
  | Row3 cls k kwargs => register self cls k kwargs
  end.

Definition register_types (self : Preserializer) (rows : list row)
  : outcome Preserializer :=
  for_each register_row rows self.

(** [Preserializer.__init__] with the default list and mapping types. *)
Definition Preserializer_init (rows : list row) (cls : LinkManagerCls)
    (key_encoder : option Encoder) : outcome Preserializer :=
  let* c := escape_char_of cls in
  let escape_encoder := IdentifierEscapeEncoder c in
  register_types
    {| link_manager_cls := cls;
       escape_char := c;
       encoder := match key_encoder with
                  | Some e => compose e escape_encoder
                  | None => escape_encoder
                  end;
       type_key := String c "type";
       version_key := String c "version";
       deconstructors := ∅;
       versions := ∅;
       types := ∅ |}
    rows.

Definition BASIC_TYPES : list row :=
  [ Row1 TInt; Row1 TFloat; Row1 TStr;
    Row2 TTuple (Some IterableDeconstructor);
    Row2 TSet (Some IterableDeconstructor) ].

Definition JSON_TYPES : list row :=
  BASIC_TYPES ++ [ Row1 TBool; Row1 TNone; Row2 TDict (Some DictDeconstructor) ].

(** [JsonPreserializer()]. *)
Definition JsonPreserializer : outcome Preserializer :=
  Preserializer_init JSON_TYPES JsonReferenceLinkManager None.

(** [get_deconstructor_from_type(t)]. *)
Definition get_deconstructor_from_type (self : Preserializer) (t : pytype)
  : outcome (option Deconstructor) :=
  match deconstructors self !! (t, versions self !! t) with
  | Some d => Ok d
  | None => Raise UnregisteredTypeError
  end.

(** A version as a key of the registry. *)
Definition prim_of_ver (v : ver) : prim :=
  match v with VerInt z => PInt z | VerStr s => PStr s end.

(** An integral [float] as the [int] it equals. *)
Definition float_integer (f : spec_float) : option Z :=
  match f with
  | S754_zero _ => Some 0%Z
  | S754_finite s m e =>
      let v := if s then Z.neg m else Z.pos m in
      if (0 <=? e)%Z then Some (v * 2 ^ e)%Z
      else if (v mod 2 ^ (- e) =? 0)%Z then Some (v / 2 ^ (- e))%Z else None
  | _ => None
  end.

(** The registered version a primitive equals as a dict key, when there is
    one: [Some None] is the version [None]. *)
Definition version_key_of (p : prim) : option (option ver) :=
  match p with
  | PNone => Some None
  | PInt z => Some (Some (VerInt z))
  | PBool b => Some (Some (VerInt (Py.Z_of_bool b)))
  | PStr s => Some (Some (VerStr s))
  | PFloat f => match float_integer f with
                | Some z => Some (Some (VerInt z))
                | None => None
                end
  end.

(** [get_deconstructor_from_data(data)] on a mapping.  A missing type key
    raises [KeyError] again inside the handler. *)
Definition get_deconstructor_from_data (self : Preserializer) (h : heap)
    (data : list (string * wire)) : outcome (option Deconstructor) :=
  let version := wmap_get (version_key self) data in
  match wmap_get (type_key self) data with
  | None => Raise KeyError
  | Some (WList _) | Some (WMap _) => Raise TypeError
  | Some w =>
      let* version :=
        match version with
        | None => Ok (Some None)
        | Some (WList _) | Some (WMap _) => Raise TypeError
        | Some v => match wire_prim h v with
                    | Some p => Ok (version_key_of p)
                    | None => Unmodelled
                    end
        end in
      match wire_prim h w with
      | None => Unmodelled
      | Some tag =>
          let found :=
            match tag, version with
            | PStr name, Some v =>
                match types self !! (name, v) with
                | Some t => deconstructors self !! (t, v)
                | None => None
                end
            | _, _ => None
            end in
          match found with
          | Some d => Ok d
          | None => Raise UnregisteredTypeError
          end
      end
  end.


(** ** The traversals *)

(** What a pass threads: the heap and its link manager. *)
Definition state : Type := heap * LinkManager.

Section EncodeSteps.

(** The preserializer, and the walk one level down: the call
    [self._preserialize.call(self, obj, path, link_manager)]. *)
Variable self : Preserializer.
Variable call : loc -> path -> state -> outcome (wire * state).

(** [for i, item in enumerate(items): data.append((yield call(item, at i)))]. *)
Definition preserialize_items (at_index : nat -> path) (items : list loc)
    (st : state) : outcome (list wire * state) :=
  for_enumerate
    (fun i item '(data, st) =>
       let* (w, st') := call item (at_index i) st in
       Ok (data ++ [w], st'))
    0 items ([], st).

(** [for key, attr in kwargs.items(): data[ekey] = yield call(attr, ...)]. *)
Definition preserialize_kwargs (p : path) (kwargs : list (string * loc))
    (data : list (string * wire)) (st : state)
  : outcome (list (string * wire) * state) :=
  for_each
    (fun '(key, attr) '(data, st) =>
       let* ekey := encode (encoder self) key in
       let* (w, st') := call attr (p ++ [KStr ekey]) st in
       Ok (wmap_set ekey w data, st'))
    kwargs (data, st).

(** The branch of a list. *)
Definition preserialize_list (p : path) (items : list loc) (st : state)
  : outcome (wire * state) :=
  let* (data, st') :=
    preserialize_items (fun i => p ++ [KInt (Z.of_nat i)]) items st in
  Ok (WList data, st').

(** The head of a mapping: the type tag, and the version when there is
    one. *)
Definition mapping_head (d : Deconstructor) : list (string * wire) :=
  let data := wmap_set (type_key self) (WStr (dc_name d)) [] in
  match dc_version d with
  | Some v => wmap_set (version_key self) (WLit (prim_of_ver v)) data
  | None => data
  end.

(** The branch of an object with a deconstructor.  The list under [DATA]
    is filled in place in the source; here it is stored once it is
    complete, which puts the key at the same place of the mapping. *)
Definition preserialize_mapping (d : Deconstructor) (obj : loc) (p : path)
    (st : state) : outcome (wire * state) :=
  let '(h, lm) := st in
  let data := mapping_head d in
  let* (args, kwargs, h') := deconstruct d obj h in
  let* (data, st) :=
    match args with
    | [] => Ok (data, (h', lm))
    | _ =>
        let* (ws, st') :=
          preserialize_items (fun i => p ++ [KStr DATA; KInt (Z.of_nat i)])
            args (h', lm) in
        Ok (wmap_set DATA (WList ws) data, st')
    end in
  let* (data, st) := preserialize_kwargs p kwargs data st in
  Ok (WMap data, st).

(** The identity check in front of both branches: an object met before
    becomes a reference; a new one is recorded and [body] runs. *)
Definition visit (obj : loc) (p : path) (st : state)
    (body : state -> outcome (wire * state)) : outcome (wire * state) :=
  let '(h, lm) := st in
  match path_cache_get obj lm with
  | Some dest_path =>
      let lm' := add p dest_path lm in
      let* r := make_ref (link_manager_cls self) dest_path in
      Ok (r, (h, lm'))
  | None => body (h, path_cache_add obj p lm)
  end.

(** The body of [_preserialize]. *)
Definition preserialize_step (obj : loc) (p : path) (st : state)
  : outcome (wire * state) :=
  match st.1 !! obj with
  | None => Unmodelled
  | Some o =>
      let* deconstructor :=
        match o with
        | OList _ => Ok None
        | _ => get_deconstructor_from_type self (type_of o)
        end in
      match o, deconstructor with
      | OList items, _ => visit obj p st (preserialize_list p items)
      | _, None => Ok (WObj obj, st)
      | _, Some d => visit obj p st (preserialize_mapping d obj p)
      end
  end.

End EncodeSteps.

(** [_preserialize(obj, path, link_manager)]. *)
Fixpoint _preserialize (fuel : nat) (self : Preserializer) (obj : loc)
    (p : path) (st : state) {struct fuel} : outcome (wire * state) :=
  match fuel with
  | O => OutOfFuel
  | S n => preserialize_step self (_preserialize n self) obj p st
  end.

(** [preserialize(obj)]: the tree, and the heap after the walk. *)
Definition preserialize (fuel : nat) (self : Preserializer) (h : heap) (obj : loc)
  : outcome (wire * heap) :=
  let link_manager := LinkManager_init in
  let* (data, (h', link_manager)) :=
    _preserialize fuel self obj [] (h, link_manager) in
  let* data := label_data (link_manager_cls self) link_manager data in
  Ok (data, h').

(** A node of the tree as an object of the heap: what a reference that is
    left in place is. *)
Fixpoint materialise (w : wire) (h : heap) : loc * heap :=
  match w with
  | WObj l => (l, h)
  | WLit p => alloc (OPrim p) h
  | WList items =>
      let '(ls, h') :=
        (fix go (items : list wire) (h : heap) : list loc * heap :=
           match items with
           | [] => ([], h)
           | x :: xs =>
               let '(l, h1) := materialise x h in
               let '(ls, h2) := go xs h1 in
               (l :: ls, h2)
           end) items h in
      alloc (OList ls) h'
  | WMap entries =>
      let '(kvs, h') :=
        (fix go (entries : list (string * wire)) (h : heap)
           : list (loc * loc) * heap :=
           match entries with
           | [] => ([], h)
           | (k, x) :: xs =>
               let '(kl, h1) := alloc (OPrim (PStr k)) h in
               let '(vl, h2) := materialise x h1 in
               let '(kvs, h3) := go xs h2 in
               ((kl, vl) :: kvs, h3)
           end) entries h in
      alloc (ODict kvs) h'
  end.

(** The runtime type of a node of the tree. *)
Definition wire_type (h : heap) (data : wire) : outcome pytype :=
  match data with
  | WList _ => Ok TList
  | WMap _ => Ok TDict
  | WLit q => Ok (prim_type q)
  | WObj l =>
      match h !! l with
      | Some (OList _) | Some (ODict _) | None => Unmodelled
      | Some o => Ok (type_of o)
      end
  end.

Section DecodeSteps.

(** The preserializer, and the walk one level down: the call
    [self._depreserialize.call(self, data, path, doc, link_manager,
    parent_deconstructor)]. *)
Variable self : Preserializer.
Variable call : wire -> path -> option Deconstructor -> state -> outcome (loc * state).

(** [for i, item in enumerate(items): obj.append((yield call(item, ...)))],
    appending to [acc]. *)
Definition depreserialize_items (p : path) (parent : option Deconstructor)
    (items : list wire) (acc : list loc) (st : state)
  : outcome (list loc * state) :=
  for_enumerate
    (fun i item '(acc, st) =>
       let* (x, st') := call item (p ++ [KInt (Z.of_nat i)]) parent st in
       Ok (acc ++ [x], st'))
    0 items (acc, st).

(** The loop over the items of a mapping: the positional arguments under
    [DATA], the keyword arguments under every key but the two reserved
    ones. *)
Definition depreserialize_entries (p : path) (deconstructor : option Deconstructor)
    (entries : list (string * wire)) (st : state)
  : outcome (list loc * list (string * loc) * state) :=
  for_each
    (fun '(key, item) '(args, kwargs, st) =>
       if String.eqb key DATA then
         match item with
         | WList items =>
             let* (args, st') :=
               depreserialize_items p deconstructor items args st in
             Ok (args, kwargs, st')
         | WLit (PStr _) | WMap _ | WObj _ => Unmodelled
         | WLit _ => Raise TypeError
         end
       else if String.eqb key (type_key self) || String.eqb key (version_key self)
       then Ok (args, kwargs, st)
       else
         let dkey := decode (encoder self) key in
         let* (x, st') := call item (p ++ [KStr dkey]) deconstructor st in
         Ok (args, kwargs_set dkey x kwargs, st'))
    entries ([], [], st).

(** The branch of a reference. *)
Definition depreserialize_ref (data : wire) (p : path)
    (parent_deconstructor : option Deconstructor) (st : state)
  : outcome (loc * state) :=
  let '(h, lm) := st in
  let* parts := ref_path (link_manager_cls self) h data in
  let dest_path := map cast_int (filter (fun key => key ≠ DATA) parts) in
  match object_cache_get dest_path lm with
  | Some obj => Ok (obj, st)
  | None =>
      let lm := add p dest_path lm in
      let lm := set_source_parent_deconstructor p parent_deconstructor lm in
      let '(obj, h') := materialise data h in
      Ok (obj, (h', lm))
  end.

(** The branch of a list: the new list is given its location when it is
    complete. *)
Definition depreserialize_list (p : path) (items : list wire) (st : state)
  : outcome (loc * state) :=
  let* (obj, st') := depreserialize_items p None items [] st in
  let '(h, lm) := st' in
  let '(l, h') := alloc (OList obj) h in
  Ok (l, (h', lm)).

(** The branch of a mapping. *)
Definition depreserialize_mapping (fuel : nat) (p : path)
    (entries : list (string * wire)) (st : state) : outcome (loc * state) :=
  let* deconstructor := get_deconstructor_from_data self st.1 entries in
  let* (args, kwargs, st') := depreserialize_entries p deconstructor entries st in
  match deconstructor with
  | None => Raise AttributeError
  | Some d =>
      let '(h, lm) := st' in
      let* (obj, h') := construct fuel d args kwargs h in
      Ok (obj, (h', lm))
  end.

(** The body of [_depreserialize]; [fuel] also bounds the comparisons of
    keys in [construct]. *)
Definition depreserialize_step (fuel : nat) (data : wire) (p : path)
    (parent_deconstructor : option Deconstructor) (st : state)
  : outcome (loc * state) :=
  let '(h, lm) := st in
  let cls := link_manager_cls self in
  let* t := wire_type h data in
  let* deconstructor :=
    match t with
    | TList | TDict => Ok None
    | _ => get_deconstructor_from_type self t
    end in
  match t, deconstructor with
  | TList, _ | TDict, _ | _, Some _ =>
      let* r := is_ref cls data in
      if r then depreserialize_ref data p parent_deconstructor st
      else
        let* (obj, (h, lm)) :=
          match data with
          | WList items => depreserialize_list p items st
          | WMap entries => depreserialize_mapping fuel p entries st
          | _ => Raise AttributeError
          end in
        Ok (obj, (h, object_cache_add p obj lm))
  | _, None =>
      let '(obj, h') := materialise data h in
      Ok (obj, (h', lm))
  end.

End DecodeSteps.

(** [_depreserialize(data, path, doc, link_manager, parent_deconstructor)];
    [doc] is passed along and never read. *)
Fixpoint _depreserialize (fuel : nat) (self : Preserializer) (data : wire)
    (p : path) (parent_deconstructor : option Deconstructor) (st : state)
    {struct fuel} : outcome (loc * state) :=
  match fuel with
  | O => OutOfFuel
  | S n =>
      depreserialize_step self (_depreserialize n self) n data p
        parent_deconstructor st
  end.

(** One source of a link is set to its destination. *)
Definition set_source (fuel : nat) (lm : LinkManager) (dest_obj : loc)
    (source : path) (h : heap) : outcome heap :=
  match _parent_deconstructors lm !! source with
  | None => Raise KeyError
  | Some deconstructor =>
      match object_cache_get (removelast source) lm with
      | None => Raise KeyError
      | Some parent_obj =>
          match last source with
          | None => Raise IndexError
          | Some key =>
              match deconstructor with
              | Some d => setattr fuel d parent_obj key dest_obj h
              | None => Py.setitem fuel parent_obj key dest_obj h
              end
          end
      end
  end.

(** [set_sources(obj)]: every recorded source is set to its destination. *)
Definition set_sources (fuel : nat) (lm : LinkManager) (h : heap) : outcome heap :=
  for_each
    (fun '(dest, (_, sources)) h =>
       match object_cache_get dest lm with
       | None => Raise KeyError
       | Some dest_obj => for_each (set_source fuel lm dest_obj) sources h
       end)
    (_links lm) h.

(** [depreserialize(data)]: the object, and the heap after the walk. *)
Definition depreserialize (fuel : nat) (self : Preserializer) (h : heap)
    (data : wire) : outcome (loc * heap) :=
  let link_manager := LinkManager_init in
  let* (obj, (h', link_manager)) :=
    _depreserialize fuel self data [] None (h, link_manager) in
  let* h'' := set_sources fuel link_manager h' in
  Ok (obj, h'').

(** * Properties *)

(** ** Definitions used by the statements *)

(** The preserializers a [JsonPreserializer] can become: its link manager,
    keys and encoder, with any registry. *)
Definition json_like (self : Preserializer) : Prop :=
  link_manager_cls self = JsonReferenceLinkManager /\
  escape_char self = "$"%char /\
  encoder self = IdentifierEscapeEncoder "$"%char /\
  type_key self = "$type"%string /\
  version_key self = "$version"%string.

(** The registry before any registration. *)
Definition blank_preserializer (cls : LinkManagerCls) (c : ascii) : Preserializer :=
  {| link_manager_cls := cls; escape_char := c;
     encoder := IdentifierEscapeEncoder c;
     type_key := String c "type"; version_key := String c "version";
     deconstructors := ∅; versions := ∅; types := ∅ |}.

(** What a call returned, or [d] when it did not return. *)
Definition returned {A} (d : A) (m : outcome A) : A :=
  match m with Ok a => a | _ => d end.

(** The JSON preserializer as a value. *)
Definition json_preserializer : Preserializer :=
  returned (blank_preserializer JsonReferenceLinkManager "$"%char) JsonPreserializer.

(** The preserializer of the tests: the JSON one, then [Parrot] at version 2
    and [Egg] without a version. *)
Definition test_preserializer : Preserializer :=
  returned json_preserializer
    (let* P := register json_preserializer (TClass "Parrot") (Some InstanceDeconstructor)
                 {| opt_name := None; opt_version := Some (VerInt 2); opt_ignore := [] |} in
     register P (TClass "Egg") (Some InstanceDeconstructor) no_options).

(** A tree with every passed-through primitive written out. *)
Fixpoint resolve (h : heap) (w : wire) : wire :=
  match w with
  | WObj l => match h !! l with Some (OPrim p) => WLit p | _ => WObj l end
  | WLit p => WLit p
  | WList items => WList (map (resolve h) items)
  | WMap entries => WMap (map (fun kv => (kv.1, resolve h kv.2)) entries)
  end.

(** The value of an object, identities forgotten. *)
#[warnings="-register-all"]
Inductive pyval : Type :=
| VPrim (p : prim)
| VList (items : list pyval)
| VTuple (items : list pyval)
| VSet (items : list pyval)
| VDict (items : list (pyval * pyval))
| VInstance (cls : string) (attrs : list (string * pyval)).

Fixpoint sequence {A} (xs : list (option A)) : option (list A) :=
  match xs with
  | [] => Some []
  | Some x :: rest => match sequence rest with Some r => Some (x :: r) | None => None end
  | None :: _ => None
  end.

(** [view fuel h l]: the value at [l], when it is nested less deeply than
    [fuel]. *)
Fixpoint view (fuel : nat) (h : heap) (l : loc) : option pyval :=
  match fuel with
  | O => None
  | S n =>
      match h !! l with
      | None => None
      | Some (OPrim p) => Some (VPrim p)
      | Some (OList items) => VList <$> sequence (map (view n h) items)
      | Some (OTuple items) => VTuple <$> sequence (map (view n h) items)
      | Some (OSet items) => VSet <$> sequence (map (view n h) items)
      | Some (ODict items) =>
          VDict <$> sequence (map (fun kv =>
                                     match view n h kv.1, view n h kv.2 with
                                     | Some k, Some v => Some (k, v)
                                     | _, _ => None
                                     end) items)
      | Some (OInstance c attrs) =>
          VInstance c <$> sequence (map (fun kv =>
                                           match view n h kv.2 with
                                           | Some v => Some (kv.1, v)
                                           | None => None
                                           end) attrs)
      end
  end.

(** The float 3.1415927. *)
Definition float_3_1415927 : spec_float :=
  S754_finite false 7074237856534935 (-51).

(** The mapping with the one key [brian]; the dict is at location 2. *)
Definition brian_heap : heap :=
  [ OPrim (PStr "brian"); OPrim (PStr "naughty boy"); ODict [(0, 1)] ].

(** The mapping with the keys [brian] and 3; the dict is at location 4. *)
Definition mixed_heap : heap :=
  [ OPrim (PStr "brian"); OPrim (PStr "naughty boy");
    OPrim (PInt 3); OPrim (PStr "Antioch"); ODict [(0, 1); (2, 3)] ].

Definition brian_tree : wire :=
  WMap [("$type"%string, WStr "dict"); ("brian"%string, WStr "naughty boy")].

Definition mixed_tree : wire :=
  WMap [("$type"%string, WStr "dict");
        (DATA, WList [WList [WStr "brian"; WStr "naughty boy"];
                      WList [WLit (PInt 3); WStr "Antioch"]])].

Definition brian_value : pyval :=
  VDict [(VPrim (PStr "brian"), VPrim (PStr "naughty boy"))].

Definition mixed_value : pyval :=
  VDict [(VPrim (PStr "brian"), VPrim (PStr "naughty boy"));
         (VPrim (PInt 3), VPrim (PStr "Antioch"))].




(** The parrot of the tests at location 1 and its egg at location 2, each
    the other's attribute. *)
Definition parrot_heap : heap :=
  [ OPrim (PBool true);
    OInstance "Parrot" [("is_dead"%string, 0); ("from_egg"%string, 2)];
    OInstance "Egg" [("from_parrot"%string, 1)] ].

Definition parrot_deconstructor : Deconstructor :=
  {| dc_class := InstanceDeconstructor; dc_cls := TClass "Parrot";
     dc_name := "parrot"; dc_version := Some (VerInt 2); dc_ignore := [] |}.






(** An object the walk tracks by identity: a list, or an object whose type
    has a deconstructor. *)
Definition tracked (self : Preserializer) (h : heap) (l : loc) : Prop :=
  exists o, h !! l = Some o /\
    (type_of o = TList \/
     exists d, get_deconstructor_from_type self (type_of o) = Ok (Some d)).

(** An object that passes through: its type is registered with no
    deconstructor. *)
Definition pass_through (self : Preserializer) (h : heap) (l : loc) : Prop :=
  exists o, h !! l = Some o /\ type_of o <> TList /\
    get_deconstructor_from_type self (type_of o) = Ok None.

(** A list that holds the same [int] object twice. *)
Definition twice_heap : heap := [ OPrim (PInt 7); OList [0; 0] ].

(** The locations an object holds. *)
Definition refs (o : object) : list loc :=
  match o with
  | OPrim _ => []
  | OList items | OTuple items | OSet items => items
  | ODict items => items.*1 ++ items.*2
  | OInstance _ attrs => attrs.*2
  end.

(** A heap without dangling locations. *)
Definition closed (h : heap) : Prop :=
  forall l o, h !! l = Some o -> forall x, x ∈ refs o -> x < length h.

(** The objects of the first [N] locations the identity cache does not
    hold. *)
Definition unvisited (N : nat) (lm : LinkManager) : nat :=
  length (filter (fun l => _path_cache lm !! l = None) (seq 0 N)).

(** The states of a walk over the heap [h0]: the heap has only grown, by
    the two-element lists made for the items of dicts. *)
Definition walk_inv (h0 : heap) (st : state) : Prop :=
  h0 `prefix_of` st.1 /\
  forall l o, length h0 <= l -> st.1 !! l = Some o ->
    exists k v, o = OList [k; v] /\ k < length h0 /\ v < length h0.

(** Fuel that is enough to walk [obj] from the state [st]. *)
Definition fuel_ok (N : nat) (st : state) (obj : loc) (n : nat) : Prop :=
  2 * unvisited N st.2 + (if decide (obj < N) then 2 else 3) <= n.

(** A walk one level down that returns within its fuel and keeps the
    invariant. *)
Definition call_good (h0 : heap) (n : nat)
    (call : loc -> path -> state -> outcome (wire * state)) : Prop :=
  forall obj p st,
    walk_inv h0 st -> fuel_ok (length h0) st obj n ->
    call obj p st <> OutOfFuel /\
    forall w st', call obj p st = Ok (w, st') ->
      walk_inv h0 st' /\ unvisited (length h0) st'.2 <= unvisited (length h0) st.2.

(** The keys the encoder puts in a path: an index, the key of the
    positional arguments, or an identifier. *)
Definition path_key_ok (k : pkey) : Prop :=
  match k with
  | KInt _ => True
  | KStr s => s = DATA \/ is_identifier s = true
  end.

(** A character of a numeral or of an identifier. *)
Definition plain_char (c : ascii) : bool :=
  Str.is_word c || Ascii.eqb c "-"%char.

(** ** The key encoder *)

Section KeyEncoder.

Local Open Scope string_scope.

Variable char : ascii.

Let one := Str.char_str char.
Let two := double_char char.


Lemma escape_empty : Str.replace one two EmptyString = EmptyString.
Proof. reflexivity. Qed.



End KeyEncoder.




(** ** Registration *)






(** *** Loops *)

Lemma for_enumerate_index {X St} (f : X -> St -> outcome St) i j xs s :
  for_enumerate (fun _ => f) i xs s = for_enumerate (fun _ => f) j xs s.
Proof.
  revert i j s. induction xs as [|x xs IH]; intros i j s; [reflexivity|].
  simpl. destruct (f x s); simpl; try reflexivity. apply IH.
Qed.


Lemma for_each_cons {X St} (f : X -> St -> outcome St) x xs s :
  for_each f (x :: xs) s = (let* s' := f x s in for_each f xs s').
Proof.
  unfold for_each. simpl. destruct (f x s); simpl; try reflexivity.
  apply for_enumerate_index.
Qed.



(** *** Versions *)











(** ** Values that pass through *)

Lemma label_data_no_links cls lm data :
  _links lm = [] -> label_data cls lm data = Ok data.
Proof. intros H. unfold label_data. rewrite H. reflexivity. Qed.

Lemma set_sources_no_links fuel lm h :
  _links lm = [] -> set_sources fuel lm h = Ok h.
Proof. intros H. unfold set_sources. rewrite H. reflexivity. Qed.

(** A value of a pass-through type is returned by the walk at once, and the
    state is left as it was. *)
Lemma _preserialize_pass_through n self obj p h lm o :
  h !! obj = Some o ->
  type_of o <> TList ->
  get_deconstructor_from_type self (type_of o) = Ok None ->
  _preserialize (S n) self obj p (h, lm) = Ok (WObj obj, (h, lm)).
Proof.
  intros Ho Ht Hd. cbn [_preserialize]. unfold preserialize_step.
  cbn [fst]. rewrite Ho.
  destruct o; cbn [type_of] in *; try (rewrite Hd; reflexivity).
  exfalso. apply Ht. reflexivity.
Qed.

Lemma _depreserialize_pass_through n self obj p pd h lm o :
  h !! obj = Some o ->
  type_of o <> TList -> type_of o <> TDict ->
  get_deconstructor_from_type self (type_of o) = Ok None ->
  _depreserialize (S n) self (WObj obj) p pd (h, lm) = Ok (obj, (h, lm)).
Proof.
  intros Ho Ht Ht' Hd. cbn [_depreserialize]. unfold depreserialize_step, wire_type.
  rewrite Ho.
  destruct o as [q| | | | |]; [destruct q| | | | |];
    cbn [type_of prim_type] in *; try congruence;
    cbn [obind]; rewrite Hd; reflexivity.
Qed.

Lemma _depreserialize_literal n self q p pd h lm :
  get_deconstructor_from_type self (prim_type q) = Ok None ->
  _depreserialize (S n) self (WLit q) p pd (h, lm) =
  Ok (length h, (h ++ [OPrim q], lm)).
Proof.
  intros Hd. cbn [_depreserialize]. unfold depreserialize_step, wire_type.
  cbn [obind].
  destruct q; cbn [prim_type] in *; rewrite Hd; reflexivity.
Qed.

(** C6.  A value whose type is registered with no deconstructor (and is
    neither a list nor a dict) is its own encoding and its own decoding:
    [preserialize] returns the object itself and [depreserialize] of the
    object returns it, the heap unchanged; a primitive written in a tree
    decodes to an object holding that primitive. *)
Theorem primitive_identity (self : Preserializer) (h : heap) (v : loc)
    (o : object) (fuel : nat) :
  h !! v = Some o ->
  type_of o <> TList -> type_of o <> TDict ->
  get_deconstructor_from_type self (type_of o) = Ok None ->
  preserialize (S fuel) self h v = Ok (WObj v, h) /\
  depreserialize (S fuel) self h (WObj v) = Ok (v, h) /\
  (forall q, o = OPrim q ->
     depreserialize (S fuel) self h (WLit q) = Ok (length h, h ++ [OPrim q])).
Proof.
  intros Ho Ht Ht' Hd. repeat split.
  - unfold preserialize.
    rewrite (_preserialize_pass_through _ _ _ _ _ _ _ Ho Ht Hd). reflexivity.
  - unfold depreserialize.
    rewrite (_depreserialize_pass_through _ _ _ _ _ _ _ _ Ho Ht Ht' Hd). reflexivity.
  - intros q ->. unfold depreserialize.
    rewrite (_depreserialize_literal _ _ _ _ _ _ _ Hd). reflexivity.
Qed.

(** The scalars of the tests. *)
Definition scalars_heap : heap :=
  [ OPrim (PInt 123); OPrim (PFloat float_3_1415927);
    OPrim (PStr "The Knights who say Ni!"); OPrim (PBool false); OPrim PNone ].

(** Under the JSON preserializer 123, 3.1415927, a string, [False] and
    [None] are their own encodings and decodings. *)
Lemma primitive_identity_witness :
  (preserialize 1 json_preserializer scalars_heap 0 = Ok (WObj 0, scalars_heap) /\
   depreserialize 1 json_preserializer scalars_heap (WObj 0) = Ok (0, scalars_heap)) /\
  (preserialize 1 json_preserializer scalars_heap 1 = Ok (WObj 1, scalars_heap) /\
   depreserialize 1 json_preserializer scalars_heap (WObj 1) = Ok (1, scalars_heap)) /\
  (preserialize 1 json_preserializer scalars_heap 2 = Ok (WObj 2, scalars_heap) /\
   depreserialize 1 json_preserializer scalars_heap (WObj 2) = Ok (2, scalars_heap)) /\
  (preserialize 1 json_preserializer scalars_heap 3 = Ok (WObj 3, scalars_heap) /\
   depreserialize 1 json_preserializer scalars_heap (WObj 3) = Ok (3, scalars_heap)) /\
  (preserialize 1 json_preserializer scalars_heap 4 = Ok (WObj 4, scalars_heap) /\
   depreserialize 1 json_preserializer scalars_heap (WObj 4) = Ok (4, scalars_heap)).
Proof.
  repeat apply conj.
  all: match goal with
       | |- preserialize 1 _ _ ?v = _ =>
           match eval vm_compute in (scalars_heap !! v) with
           | Some ?o =>
               apply (primitive_identity json_preserializer scalars_heap v o 0);
               [reflexivity | discriminate | discriminate | reflexivity]
           end
       | |- depreserialize 1 _ _ (WObj ?v) = _ =>
           match eval vm_compute in (scalars_heap !! v) with
           | Some ?o =>
               apply (primitive_identity json_preserializer scalars_heap v o 0);
               [reflexivity | discriminate | discriminate | reflexivity]
           end
       end.
Defined.

(** ** The mappings of the tests *)

(** C3.  Under the JSON preserializer the mapping with the key [brian]
    encodes to the tagged mapping that carries the key itself, the mapping
    with the keys [brian] and 3 encodes to the tagged mapping that carries
    the list of its items under the empty key, and each tree (as the
    encoder returns it, and written out as a literal) decodes to a new dict
    equal to the original, the key 3 an [int] again. *)
Theorem dict_scenarios :
  (exists w h,
     preserialize 3 json_preserializer brian_heap 2 = Ok (w, h) /\
     resolve h w = brian_tree /\
     view 2 brian_heap 2 = Some brian_value /\
     (exists r h', depreserialize 3 json_preserializer h w = Ok (r, h') /\
                   r <> 2 /\ view 2 h' r = Some brian_value) /\
     (exists r h', depreserialize 3 json_preserializer brian_heap brian_tree = Ok (r, h') /\
                   view 2 h' r = Some brian_value)) /\
  (exists w h,
     preserialize 3 json_preserializer mixed_heap 4 = Ok (w, h) /\
     resolve h w = mixed_tree /\
     view 2 mixed_heap 4 = Some mixed_value /\
     (exists r h', depreserialize 3 json_preserializer h w = Ok (r, h') /\
                   r <> 4 /\ view 2 h' r = Some mixed_value) /\
     (exists r h', depreserialize 3 json_preserializer mixed_heap mixed_tree = Ok (r, h') /\
                   view 2 h' r = Some mixed_value)).
Proof.
  split.
  - eexists. eexists. split; [vm_compute; reflexivity|].
    split; [vm_compute; reflexivity|].
    split; [vm_compute; reflexivity|]. split.
    + eexists. eexists. split; [vm_compute; reflexivity|].
      split; [discriminate | vm_compute; reflexivity].
    + eexists. eexists. split; vm_compute; reflexivity.
  - eexists. eexists. split; [vm_compute; reflexivity|].
    split; [vm_compute; reflexivity|].
    split; [vm_compute; reflexivity|]. split.
    + eexists. eexists. split; [vm_compute; reflexivity|].
      split; [discriminate | vm_compute; reflexivity].
    + eexists. eexists. split; vm_compute; reflexivity.
Qed.

(** ** The shape of an encoded mapping *)

Lemma wmap_get_set_eq k v m : wmap_get k (wmap_set k v m) = Some v.
Proof.
  induction m as [|[k' v'] m IH]; simpl.
  - by rewrite String.eqb_refl.
  - destruct (String.eqb k' k) eqn:E; simpl; rewrite E; [done|exact IH].
Qed.



Lemma wmap_get_Some_key k v m : wmap_get k m = Some v -> k ∈ m.*1.
Proof.
  induction m as [|[k0 v0] m IH]; simpl; [done|].
  destruct (String.eqb k0 k) eqn:E.
  - apply String.eqb_eq in E. subst k0. intros _. apply list_elem_of_here.
  - intros H. apply list_elem_of_further. by apply IH.
Qed.




Lemma identifier_words s :
  is_identifier s = true -> Str.all_chars Str.is_word s = true.
Proof.
  destruct s as [|a s]; [done|]. simpl.
  intros [[Ha _]%andb_prop Hs]%andb_prop. by rewrite Ha, Hs.
Qed.




Section MappingShape.

Variable self : Preserializer.
Variable call : loc -> path -> state -> outcome (wire * state).
Hypothesis Hjson : json_like self.



End MappingShape.

(** ** Labelling *)



Section Labelling.

Variable cls : LinkManagerCls.



End Labelling.


(** ** Versions *)

Lemma _preserialize_first_visit n self obj p h lm o d :
  h !! obj = Some o -> type_of o <> TList ->
  get_deconstructor_from_type self (type_of o) = Ok (Some d) ->
  path_cache_get obj lm = None ->
  _preserialize (S n) self obj p (h, lm) =
  preserialize_mapping self (_preserialize n self) d obj p (h, path_cache_add obj p lm).
Proof.
  intros Ho Ht Hd Hc. cbn [_preserialize]. unfold preserialize_step.
  cbn [fst]. rewrite Ho.
  destruct o; cbn [type_of] in *; try congruence;
    rewrite Hd; cbn [obind]; unfold visit; rewrite Hc; reflexivity.
Qed.

Lemma _preserialize_first_visit_list n self obj p h lm items :
  h !! obj = Some (OList items) ->
  path_cache_get obj lm = None ->
  _preserialize (S n) self obj p (h, lm) =
  preserialize_list (_preserialize n self) p items (h, path_cache_add obj p lm).
Proof.
  intros Ho Hc. cbn [_preserialize]. unfold preserialize_step.
  cbn [fst]. rewrite Ho. cbn [obind]. unfold visit. rewrite Hc. reflexivity.
Qed.

(** An identity met before becomes a reference to the remembered path, the
    visit is recorded as a source of that path, and nothing below the
    object is walked. *)
Lemma _preserialize_seen n self obj p h lm o dest :
  h !! obj = Some o ->
  (type_of o = TList \/
   exists d, get_deconstructor_from_type self (type_of o) = Ok (Some d)) ->
  path_cache_get obj lm = Some dest ->
  _preserialize (S n) self obj p (h, lm) =
  (let* r := make_ref (link_manager_cls self) dest in Ok (r, (h, add p dest lm))).
Proof.
  intros Ho Ht Hc. cbn [_preserialize]. unfold preserialize_step.
  cbn [fst]. rewrite Ho.
  destruct o as [q| | | | |]; cbn [type_of] in *;
    first [ destruct Ht as [Ht|[d Hd]]; [by (discriminate || destruct q)|];
            rewrite Hd; cbn [obind]; unfold visit; rewrite Hc; reflexivity
          | cbn [obind]; unfold visit; rewrite Hc; reflexivity ].
Qed.













Lemma test_preserializer_json_like : json_like test_preserializer.
Proof. repeat split. Qed.






(** ** What every walk keeps *)

Lemma item_lists_spec items h ls h' :
  item_lists items h = (ls, h') ->
  h' = h ++ map (fun kv => OList [kv.1; kv.2]) items /\
  ls = seq (length h) (length items).
Proof.
  revert h ls h'. induction items as [|[k v] items IH]; intros h ls h' H; simpl in H.
  - injection H as <- <-. by rewrite app_nil_r.
  - destruct (item_lists items (h ++ [OList [k; v]])) as [ls1 h1] eqn:E.
    injection H as <- <-. apply IH in E as [-> ->].
    rewrite length_app. simpl. rewrite <- app_assoc. simpl.
    split; [done|]. f_equal. f_equal. lia.
Qed.

Lemma deconstruct_heap d obj h args kwargs h' :
  deconstruct d obj h = Ok (args, kwargs, h') -> h `prefix_of` h'.
Proof.
  unfold deconstruct. destruct (h !! obj) as [o|]; [|discriminate].
  destruct (dc_class d).
  - intros H. by injection H as _ _ <-.
  - destruct o as [q| | | | |]; try discriminate;
      try (intros H; by injection H as _ _ <-).
    destruct q; discriminate.
  - destruct o; try discriminate.
    destruct (identifier_items h items).
    + intros H. by injection H as _ _ <-.
    + destruct (item_lists items h) as [ls h1] eqn:E. intros H.
      injection H as _ _ <-. apply item_lists_spec in E as [-> _].
      by apply prefix_app_r.
  - destruct o; try discriminate. intros H. by injection H as _ _ <-.
Qed.

Section WalkPreorder.

Variable self : Preserializer.

(** A relation between the state before and the state after. *)
Variable R : state -> state -> Prop.

Hypothesis R_refl : forall st, R st st.
Hypothesis R_trans : forall a b c, R a b -> R b c -> R a c.

(** The three changes of state the walk itself makes. *)
Hypothesis R_record : forall h lm obj p,
  tracked self h obj -> path_cache_get obj lm = None ->
  R (h, lm) (h, path_cache_add obj p lm).
Hypothesis R_link : forall h lm obj p dest,
  tracked self h obj -> path_cache_get obj lm = Some dest ->
  R (h, lm) (h, add p dest lm).
Hypothesis R_deconstruct : forall h lm d obj args kwargs h',
  deconstruct d obj h = Ok (args, kwargs, h') -> R (h, lm) (h', lm).

Section Step.

Variable call : loc -> path -> state -> outcome (wire * state).
Hypothesis call_R : forall obj p st w st', call obj p st = Ok (w, st') -> R st st'.

Lemma preserialize_items_R at_index items st ws st' :
  preserialize_items call at_index items st = Ok (ws, st') -> R st st'.
Proof.
  unfold preserialize_items.
  assert (Hgen : forall i acc st,
            for_enumerate
              (fun i item '(data, st) =>
                 let* (w, st') := call item (at_index i) st in
                 Ok (data ++ [w], st'))
              i items (acc, st) = Ok (ws, st') -> R st st').
  { induction items as [|x items IH]; intros i acc st0 H; cbn [for_enumerate] in H.
    - injection H as _ <-. apply R_refl.
    - destruct (call x (at_index i) st0) as [[w st1]| | |] eqn:E; try discriminate.
      cbn [obind] in H. apply (R_trans _ st1); [by eapply call_R|by eapply IH]. }
  apply Hgen.
Qed.

Lemma preserialize_kwargs_R p kwargs data st data' st' :
  preserialize_kwargs self call p kwargs data st = Ok (data', st') -> R st st'.
Proof.
  unfold preserialize_kwargs.
  revert data st. induction kwargs as [|[key attr] kwargs IH]; intros data st H.
  - injection H as _ <-. apply R_refl.
  - rewrite for_each_cons in H.
    destruct (encode (encoder self) key) as [ekey| | |]; try discriminate.
    cbn [obind] in H.
    destruct (call attr (p ++ [KStr ekey]) st) as [[w st1]| | |] eqn:E;
      try discriminate.
    cbn [obind] in H. apply (R_trans _ st1); [by eapply call_R|by eapply IH].
Qed.

Lemma preserialize_list_R p items st w st' :
  preserialize_list call p items st = Ok (w, st') -> R st st'.
Proof.
  unfold preserialize_list.
  destruct (preserialize_items call _ items st) as [[data st1]| | |] eqn:E;
    try discriminate.
  cbn [obind]. intros H. injection H as _ <-. by eapply preserialize_items_R.
Qed.

Lemma preserialize_mapping_R d obj p st w st' :
  preserialize_mapping self call d obj p st = Ok (w, st') -> R st st'.
Proof.
  unfold preserialize_mapping. destruct st as [h lm].
  destruct (deconstruct d obj h) as [[[args kwargs] h1]| | |] eqn:Ed;
    try discriminate.
  cbn [obind]. intros H.
  apply (R_trans _ (h1, lm)); [by eapply R_deconstruct|].
  destruct args as [|a args].
  - cbn [obind] in H.
    destruct (preserialize_kwargs self call p kwargs _ (h1, lm))
      as [[data2 st2]| | |] eqn:E; try discriminate.
    cbn [obind] in H. injection H as _ <-. by eapply preserialize_kwargs_R.
  - destruct (preserialize_items call _ (a :: args) (h1, lm)) as [[ws st1]| | |] eqn:Ei;
      try discriminate.
    cbn [obind] in H.
    destruct (preserialize_kwargs self call p kwargs _ st1)
      as [[data2 st2]| | |] eqn:E; try discriminate.
    cbn [obind] in H. injection H as _ <-.
    apply (R_trans _ st1); [by eapply preserialize_items_R|by eapply preserialize_kwargs_R].
Qed.

Lemma preserialize_step_R obj p st w st' :
  preserialize_step self call obj p st = Ok (w, st') -> R st st'.
Proof.
  unfold preserialize_step. destruct st as [h lm]. cbn [fst].
  destruct (h !! obj) as [o|] eqn:Ho; [|discriminate].
  assert (Hvisit : forall body,
            tracked self h obj ->
            (forall st1 , body st1 = Ok (w, st') -> R st1 st') ->
            visit self obj p (h, lm) body = Ok (w, st') -> R (h, lm) st').
  { intros body Htr Hbody. unfold visit.
    destruct (path_cache_get obj lm) as [dest|] eqn:Hc.
    - destruct (make_ref (link_manager_cls self) dest); try discriminate.
      cbn [obind]. intros H. injection H as _ <-. by eapply R_link.
    - intros H. apply (R_trans _ (h, path_cache_add obj p lm));
        [by apply R_record|by apply Hbody]. }
  destruct o as [q|items|items|items|items|c attrs]; cbn [type_of].
  2: { cbn [obind]. apply Hvisit.
       - exists (OList items). split; [done|]. by left.
       - intros st1. apply preserialize_list_R. }
  all: destruct (get_deconstructor_from_type self _) as [[d|]| | |] eqn:Hd;
    try discriminate; cbn [obind];
    [ apply Hvisit;
      [ eexists; split; [exact Ho|]; right; exists d; exact Hd
      | intros st1; apply preserialize_mapping_R ]
    | intros H; injection H as _ <-; apply R_refl ].
Qed.

End Step.

(** Every walk that returns relates its two states. *)
Lemma _preserialize_R fuel obj p st w st' :
  _preserialize fuel self obj p st = Ok (w, st') -> R st st'.
Proof.
  revert obj p st w st'. induction fuel as [|n IH]; intros obj p st w st' H.
  - discriminate.
  - cbn [_preserialize] in H. by eapply (preserialize_step_R _ IH).
Qed.

End WalkPreorder.

(** ** Values that are never tracked *)

Lemma tracked_prefix self h h' l :
  h `prefix_of` h' -> tracked self h l -> tracked self h' l.
Proof.
  intros Hp (o & Ho & Ht). exists o. split; [|done].
  by eapply prefix_lookup_Some.
Qed.

Lemma pass_through_not_tracked self h l :
  pass_through self h l -> tracked self h l -> False.
Proof.
  intros (o & Ho & Hnl & Hd) (o' & Ho' & Ht).
  rewrite Ho in Ho'. injection Ho' as <-.
  destruct Ht as [Ht|[d Hd']]; [done|]. rewrite Hd in Hd'. discriminate.
Qed.

(** The heap only grows, and the identity cache only ever holds tracked
    objects. *)
Definition cache_tracked (self : Preserializer) (st st' : state) : Prop :=
  st.1 `prefix_of` st'.1 /\
  ((forall l, is_Some (_path_cache st.2 !! l) -> tracked self st.1 l) ->
   (forall l, is_Some (_path_cache st'.2 !! l) -> tracked self st'.1 l)).

Lemma _preserialize_cache_tracked self fuel obj p st w st' :
  _preserialize fuel self obj p st = Ok (w, st') -> cache_tracked self st st'.
Proof.
  apply (_preserialize_R self (cache_tracked self)).
  - intros st0. split; [done|auto].
  - intros a b c [Hab1 Hab2] [Hbc1 Hbc2]. split; [by etrans|auto].
  - intros h lm o q Htr Hc. split; [done|]. cbn [fst snd path_cache_add _path_cache].
    intros Hold l. destruct (decide (o = l)) as [->|Hne].
    + done.
    + rewrite lookup_insert_ne by done. apply Hold.
  - intros h lm o q dest _ _. split; [done|]. cbn. auto.
  - intros h lm d o args kwargs h' Hd. apply deconstruct_heap in Hd.
    split; [done|]. cbn [fst snd]. intros Hold l Hl.
    eapply tracked_prefix; [done|]. by apply Hold.
Qed.

(** C9.  A value of a pass-through type is emitted as itself by every
    visit, whatever the identity cache holds, and the visit changes neither
    the cache nor the links; and after a whole walk no pass-through value
    is in the identity cache. *)
Theorem pass_through_is_never_tracked (self : Preserializer) :
  (forall n h lm obj p,
     pass_through self h obj ->
     _preserialize (S n) self obj p (h, lm) = Ok (WObj obj, (h, lm))) /\
  (forall fuel h obj w h' lm',
     _preserialize fuel self obj [] (h, LinkManager_init) = Ok (w, (h', lm')) ->
     forall l, pass_through self h' l -> path_cache_get l lm' = None).
Proof.
  split.
  - intros n h lm obj p (o & Ho & Hnl & Hd).
    by apply (_preserialize_pass_through n self obj p h lm o).
  - intros fuel h obj w h' lm' H l Hp.
    apply _preserialize_cache_tracked in H as [_ H]. cbn [fst snd] in H.
    unfold path_cache_get.
    destruct (_path_cache lm' !! l) as [q|] eqn:E; [|done].
    exfalso. apply (pass_through_not_tracked self h' l Hp). apply H.
    + intros l0 [x Hx]. cbn in Hx. by rewrite lookup_empty in Hx.
    + by rewrite E.
Qed.

(** The list that holds the same [int] object twice: the object is written
    out at both places. *)
Lemma pass_through_is_never_tracked_witness :
  _preserialize 2 json_preserializer 1 [] (twice_heap, LinkManager_init) =
    Ok (WList [WObj 0; WObj 0], (twice_heap, path_cache_add 1 [] LinkManager_init)) /\
  path_cache_get 0 (path_cache_add 1 [] LinkManager_init) = None.
Proof.
  assert (Hp : pass_through json_preserializer twice_heap 0).
  { exists (OPrim (PInt 7)). repeat split. discriminate. }
  destruct (pass_through_is_never_tracked json_preserializer) as [H1 H2].
  assert (Hrun : _preserialize 2 json_preserializer 1 [] (twice_heap, LinkManager_init) =
            Ok (WList [WObj 0; WObj 0],
                (twice_heap, path_cache_add 1 [] LinkManager_init))).
  { rewrite (_preserialize_first_visit_list 1 json_preserializer 1 [] twice_heap
               LinkManager_init [0; 0]); [|reflexivity|reflexivity].
    unfold preserialize_list, preserialize_items. cbn [for_enumerate].
    rewrite !(H1 0 twice_heap _ 0 _ Hp). reflexivity. }
  split; [exact Hrun|].
  exact (H2 2 twice_heap 1 _ _ _ Hrun 0 Hp).
Defined.

(** ** The walk ends *)

Lemma filter_length_mono {A} (P Q : A -> Prop)
    `{!forall x, Decision (P x), !forall x, Decision (Q x)} (l : list A) :
  (forall x, P x -> Q x) -> length (filter P l) <= length (filter Q l).
Proof.
  intros HPQ. rewrite <- (list_filter_filter_l P Q l HPQ). apply length_filter.
Qed.

Lemma filter_length_strict {A} (P Q : A -> Prop)
    `{!forall x, Decision (P x), !forall x, Decision (Q x)} (l : list A) x :
  (forall x, P x -> Q x) -> x ∈ l -> Q x -> ~ P x ->
  length (filter P l) < length (filter Q l).
Proof.
  intros HPQ Hx HQ HP. rewrite <- (list_filter_filter_l P Q l HPQ).
  apply (length_filter_lt _ _ x); [|done]. by apply list_elem_of_filter.
Qed.

Lemma unvisited_add_le N obj p lm :
  unvisited N (path_cache_add obj p lm) <= unvisited N lm.
Proof.
  unfold unvisited. cbn [path_cache_add _path_cache].
  apply filter_length_mono. intros x Hx.
  destruct (decide (obj = x)) as [->|Hne].
  - by rewrite lookup_insert_eq in Hx.
  - by rewrite lookup_insert_ne in Hx.
Qed.

Lemma unvisited_add_lt N obj p lm :
  obj < N -> path_cache_get obj lm = None ->
  unvisited N (path_cache_add obj p lm) < unvisited N lm.
Proof.
  intros Hlt Hc. unfold unvisited. cbn [path_cache_add _path_cache].
  apply (filter_length_strict _ _ _ obj).
  - intros x Hx. destruct (decide (obj = x)) as [->|Hne].
    + by rewrite lookup_insert_eq in Hx.
    + by rewrite lookup_insert_ne in Hx.
  - apply elem_of_seq. lia.
  - done.
  - by rewrite lookup_insert_eq.
Qed.

Lemma unvisited_add_link N p dest lm :
  unvisited N (add p dest lm) = unvisited N lm.
Proof. reflexivity. Qed.

Lemma get_deconstructor_from_type_total self t :
  get_deconstructor_from_type self t <> OutOfFuel.
Proof.
  unfold get_deconstructor_from_type. by destruct (deconstructors self !! _).
Qed.

Lemma deconstruct_total d obj h : deconstruct d obj h <> OutOfFuel.
Proof.
  unfold deconstruct. destruct (h !! obj) as [o|]; [|done].
  destruct (dc_class d); [done| | |].
  - destruct o as [q| | | | |]; try done. by destruct q.
  - destruct o; try done. destruct (identifier_items h items); [done|].
    by destruct (item_lists items h).
  - by destruct o.
Qed.

Lemma json_encode_total s : encode (IdentifierEscapeEncoder "$"%char) s <> OutOfFuel.
Proof. cbn [IdentifierEscapeEncoder encode]. by destruct (is_identifier s). Qed.

Section Termination.

Variable self : Preserializer.
Hypothesis Hjson : json_like self.

Variable h0 : heap.
Hypothesis Hclosed : closed h0.

Let N := length h0.

Lemma walk_inv_original (st : state) (l : loc) o :
  walk_inv h0 st -> l < N -> st.1 !! l = Some o -> h0 !! l = Some o.
Proof.
  intros [Hp _] Hl Ho. exact (eq_trans (prefix_lookup_lt h0 st.1 l Hl Hp) Ho).
Qed.

Lemma walk_inv_deconstruct (h : heap) lm d (obj : loc) args kwargs (h' : heap) :
  walk_inv h0 (h, lm) -> obj < N ->
  deconstruct d obj h = Ok (args, kwargs, h') -> walk_inv h0 (h', lm).
Proof.
  intros Hinv Hlt Hd. pose proof Hinv as [Hp Hnew]. cbn [fst] in *.
  split; cbn [fst].
  { etrans; [exact Hp|]. by eapply deconstruct_heap. }
  unfold deconstruct in Hd. destruct (h !! obj) as [o|] eqn:Ho; [|discriminate].
  assert (Ho0 : h0 !! obj = Some o) by (by apply (walk_inv_original (h, lm))).
  destruct (dc_class d).
  - injection Hd as _ _ <-. exact Hnew.
  - destruct o as [q| | | | |]; try discriminate;
      try (injection Hd as _ _ <-; exact Hnew).
    destruct q; discriminate.
  - destruct o as [| | | |items|]; try discriminate.
    destruct (identifier_items h items).
    { injection Hd as _ _ <-. exact Hnew. }
    destruct (item_lists items h) as [ls h1] eqn:E.
    injection Hd as _ _ <-. apply item_lists_spec in E as [-> _].
    intros l o Hl Hlo. unfold heap, loc in *.
    destruct (decide (l < length h)) as [Hlh|Hlh].
    + rewrite lookup_app_l in Hlo by done. by apply (Hnew l).
    + rewrite lookup_app_r in Hlo by lia.
      rewrite list_lookup_fmap in Hlo.
      destruct (items !! (l - length h)) as [[k v]|] eqn:Ekv; [|discriminate].
      injection Hlo as <-. exists k, v. split; [done|]. cbn [fst snd].
      apply list_elem_of_lookup_2 in Ekv.
      split; apply (Hclosed obj _ Ho0); cbn [refs]; apply elem_of_app.
      * left. apply list_elem_of_fmap. by exists (k, v).
      * right. apply list_elem_of_fmap. by exists (k, v).
  - destruct o; try discriminate. injection Hd as _ _ <-. exact Hnew.
Qed.

Section Step.

Variable n : nat.
Variable call : loc -> path -> state -> outcome (wire * state).
Hypothesis Hcall : call_good h0 n call.

Lemma preserialize_items_ends at_index items st :
  walk_inv h0 st ->
  (forall x, x ∈ items -> fuel_ok N st x n) ->
  preserialize_items call at_index items st <> OutOfFuel /\
  forall ws st', preserialize_items call at_index items st = Ok (ws, st') ->
    walk_inv h0 st' /\ unvisited N st'.2 <= unvisited N st.2.
Proof.
  unfold preserialize_items.
  assert (Hgen : forall i acc st,
            walk_inv h0 st ->
            (forall x, x ∈ items -> fuel_ok N st x n) ->
            let r := for_enumerate
                       (fun i item '(data, st) =>
                          let* (w, st') := call item (at_index i) st in
                          Ok (data ++ [w], st'))
                       i items (acc, st) in
            r <> OutOfFuel /\
            forall ws st', r = Ok (ws, st') ->
              walk_inv h0 st' /\ unvisited N st'.2 <= unvisited N st.2).
  { clear st. induction items as [|x items IH]; intros i acc st Hinv Hfuel r; subst r;
      cbn [for_enumerate].
    - split; [done|]. intros ws st' H. injection H as _ <-. done.
    - destruct (Hcall x (at_index i) st Hinv) as [Hne Hpost].
      { apply Hfuel, list_elem_of_here. }
      destruct (call x (at_index i) st) as [[w st1]| | |] eqn:E; try done.
      cbn [obind]. destruct (Hpost w st1 eq_refl) as [Hinv1 HU1].
      destruct (IH (S i) (acc ++ [w]) st1 Hinv1) as [IH1 IH2].
      { intros y Hy. specialize (Hfuel y (list_elem_of_further _ _ _ Hy)).
        unfold fuel_ok, N in *. case_decide; lia. }
      split; [done|]. intros ws st' H. destruct (IH2 ws st' H).
      split; [done|unfold N in *; lia]. }
  intros Hinv Hfuel. by apply Hgen.
Qed.

Lemma preserialize_kwargs_ends p kwargs data st :
  walk_inv h0 st ->
  (forall kv, kv ∈ kwargs -> fuel_ok N st kv.2 n) ->
  preserialize_kwargs self call p kwargs data st <> OutOfFuel /\
  forall data' st', preserialize_kwargs self call p kwargs data st = Ok (data', st') ->
    walk_inv h0 st' /\ unvisited N st'.2 <= unvisited N st.2.
Proof.
  destruct Hjson as (_ & _ & Henc & _).
  unfold preserialize_kwargs. revert data st.
  induction kwargs as [|[key attr] kwargs IH]; intros data st Hinv Hfuel.
  - split; [done|]. intros data' st' H. injection H as _ <-. done.
  - rewrite for_each_cons. rewrite Henc.
    pose proof (json_encode_total key) as Het.
    destruct (encode (IdentifierEscapeEncoder "$"%char) key) as [ekey| | |];
      try done.
    cbn [obind].
    destruct (Hcall attr (p ++ [KStr ekey]) st Hinv) as [Hne Hpost].
    { apply (Hfuel (key, attr)), list_elem_of_here. }
    destruct (call attr (p ++ [KStr ekey]) st) as [[w st1]| | |] eqn:E; try done.
    cbn [obind]. destruct (Hpost w st1 eq_refl) as [Hinv1 HU1].
    rewrite <- Henc.
    destruct (IH (wmap_set ekey w data) st1 Hinv1) as [IH1 IH2].
    { intros kv Hkv. specialize (Hfuel kv (list_elem_of_further _ _ _ Hkv)).
      unfold fuel_ok, N in *. case_decide; lia. }
    split; [done|]. intros data' st' H. destruct (IH2 data' st' H).
    split; [done|unfold N in *; lia].
Qed.

Lemma preserialize_list_ends p items st :
  walk_inv h0 st ->
  (forall x, x ∈ items -> fuel_ok N st x n) ->
  preserialize_list call p items st <> OutOfFuel /\
  forall w st', preserialize_list call p items st = Ok (w, st') ->
    walk_inv h0 st' /\ unvisited N st'.2 <= unvisited N st.2.
Proof.
  intros Hinv Hfuel. unfold preserialize_list.
  destruct (preserialize_items_ends (fun i => p ++ [KInt (Z.of_nat i)]) items st Hinv Hfuel)
    as [Hne Hpost].
  destruct (preserialize_items call _ items st) as [[data st1]| | |]; try done.
  cbn [obind]. split; [done|]. intros w st' H. injection H as _ <-. by apply (Hpost data).
Qed.

Lemma preserialize_mapping_tail_ends p kwargs data (st1 : state) U :
  walk_inv h0 st1 -> unvisited N st1.2 <= U -> 2 * U + 3 <= n ->
  (let* (data, st) := preserialize_kwargs self call p kwargs data st1 in
   Ok (WMap data, st)) <> OutOfFuel /\
  forall w st',
    (let* (data, st) := preserialize_kwargs self call p kwargs data st1 in
     Ok (WMap data, st)) = Ok (w, st') ->
    walk_inv h0 st' /\ unvisited N st'.2 <= U.
Proof.
  intros Hinv HU Hfuel.
  destruct (preserialize_kwargs_ends p kwargs data st1 Hinv) as [Hne Hpost].
  { intros kv _. unfold fuel_ok. case_decide; lia. }
  destruct (preserialize_kwargs self call p kwargs data st1) as [[data2 st2]| | |];
    try done.
  cbn [obind]. split; [done|]. intros w st' H. injection H as _ <-.
  destruct (Hpost data2 st2 eq_refl). split; [done|lia].
Qed.

Lemma preserialize_mapping_ends d (obj : loc) p (h : heap) lm :
  walk_inv h0 (h, lm) -> obj < N ->
  2 * unvisited N lm + 3 <= n ->
  preserialize_mapping self call d obj p (h, lm) <> OutOfFuel /\
  forall w st', preserialize_mapping self call d obj p (h, lm) = Ok (w, st') ->
    walk_inv h0 st' /\ unvisited N st'.2 <= unvisited N lm.
Proof.
  intros Hinv Hlt Hfuel. unfold preserialize_mapping.
  pose proof (deconstruct_total d obj h) as Hdt.
  destruct (deconstruct d obj h) as [[[args kwargs] h1]| | |] eqn:Ed; try done.
  cbn [obind].
  pose proof (walk_inv_deconstruct _ _ _ _ _ _ _ Hinv Hlt Ed) as Hinv1.
  destruct args as [|a args].
  - cbn [obind]. by apply preserialize_mapping_tail_ends.
  - destruct (preserialize_items_ends
                (fun i => p ++ [KStr DATA; KInt (Z.of_nat i)]) (a :: args) (h1, lm) Hinv1)
      as [Hne Hpost].
    { intros x _. unfold fuel_ok. cbn [snd]. case_decide; lia. }
    destruct (preserialize_items call _ (a :: args) (h1, lm)) as [[ws st1]| | |];
      try done.
    cbn [obind]. destruct (Hpost ws st1 eq_refl) as [Hinv2 HU2].
    by apply preserialize_mapping_tail_ends.
Qed.

Lemma make_ref_ends (h : heap) lm p dest :
  (let* r := make_ref (link_manager_cls self) dest in
   Ok (r, (h, add p dest lm))) <> OutOfFuel /\
  forall w st', (let* r := make_ref (link_manager_cls self) dest in
                 Ok (r, (h, add p dest lm))) = Ok (w, st') ->
    walk_inv h0 (h, lm) -> walk_inv h0 st' /\ unvisited N st'.2 <= unvisited N lm.
Proof.
  destruct Hjson as (Hcls & _). rewrite Hcls.
  cbn [make_ref JsonReferenceLinkManager JsonReference_make_ref obind].
  split; [done|]. intros w st' H Hinv. injection H as _ <-. done.
Qed.

Lemma preserialize_object_ends t (obj : loc) p (h : heap) lm :
  walk_inv h0 (h, lm) -> obj < N ->
  2 * unvisited N lm + 2 <= S n ->
  let r := (let* deconstructor := get_deconstructor_from_type self t in
            match deconstructor with
            | Some d => visit self obj p (h, lm) (preserialize_mapping self call d obj p)
            | None => Ok (WObj obj, (h, lm))
            end) in
  r <> OutOfFuel /\
  forall w st', r = Ok (w, st') ->
    walk_inv h0 st' /\ unvisited N st'.2 <= unvisited N lm.
Proof.
  intros Hinv Hlt Hfuel r. subst r.
  pose proof (get_deconstructor_from_type_total self t) as Hgt.
  destruct (get_deconstructor_from_type self t) as [[d|]| | |]; try done; cbn [obind].
  - unfold visit. destruct (path_cache_get obj lm) as [dest|] eqn:Hc.
    + destruct (make_ref_ends h lm p dest) as [Hne Hpost]. split; [done|].
      intros w st' H. exact (Hpost w st' H Hinv).
    + pose proof (unvisited_add_lt N obj p lm Hlt Hc) as HU.
      destruct (preserialize_mapping_ends d obj p h (path_cache_add obj p lm) Hinv Hlt)
        as [Hne Hpost]; [lia|].
      split; [done|]. intros w st' H. destruct (Hpost w st' H) as [? HU'].
      split; [done|lia].
  - split; [done|]. intros w st' H. by injection H as _ <-.
Qed.

Lemma preserialize_step_ends : call_good h0 (S n) (preserialize_step self call).
Proof.
  intros obj p [h lm] Hinv Hfuel. unfold preserialize_step. cbn [fst].
  destruct (h !! obj) as [o|] eqn:Ho; [|done].
  unfold fuel_ok in Hfuel. cbn [snd] in *. fold N in Hfuel.
  destruct (decide (obj < N)) as [Hlt|Hge].
  - destruct o as [q|items|items|items|items|c attrs]; cbn [type_of];
      try (by apply preserialize_object_ends).
    cbn [obind]. unfold visit.
    destruct (path_cache_get obj lm) as [dest|] eqn:Hc.
    { destruct (make_ref_ends h lm p dest) as [Hne Hpost]. split; [done|].
      intros w st' H. exact (Hpost w st' H Hinv). }
    pose proof (unvisited_add_lt N obj p lm Hlt Hc) as HU.
    destruct (preserialize_list_ends p items (h, path_cache_add obj p lm) Hinv)
      as [Hne Hpost].
    { intros x Hx. unfold fuel_ok. cbn [snd]. unfold N in *. case_decide; lia. }
    split; [done|]. intros w st' H. destruct (Hpost w st' H) as [? HU'].
    cbn [snd] in *. unfold N in *. split; [done|lia].
  - pose proof Hinv as [_ Hnew]. cbn [fst] in Hnew.
    destruct (Hnew obj o ltac:(unfold N in *; lia) Ho) as (k & v & -> & Hk & Hv).
    cbn [obind]. unfold visit.
    destruct (path_cache_get obj lm) as [dest|] eqn:Hc.
    { destruct (make_ref_ends h lm p dest) as [Hne Hpost]. split; [done|].
      intros w st' H. exact (Hpost w st' H Hinv). }
    pose proof (unvisited_add_le N obj p lm) as HU.
    destruct (preserialize_list_ends p [k; v] (h, path_cache_add obj p lm) Hinv)
      as [Hne Hpost].
    { intros x Hx. unfold fuel_ok. cbn [snd].
      assert (x < N).
      { apply elem_of_cons in Hx as [->|Hx]; [done|].
        apply list_elem_of_singleton in Hx as ->. done. }
      rewrite decide_True by done. unfold N in *. lia. }
    split; [done|]. intros w st' H. destruct (Hpost w st' H) as [? HU'].
    cbn [snd] in *. unfold N in *. split; [done|lia].
Qed.

End Step.

Lemma _preserialize_ends n : call_good h0 n (_preserialize n self).
Proof.
  induction n as [|n IH].
  - intros obj p st _ Hfuel. unfold fuel_ok in Hfuel. case_decide; lia.
  - intros obj p st. cbn [_preserialize]. by apply preserialize_step_ends.
Qed.

End Termination.

Lemma for_each_total {X St} (f : X -> St -> outcome St) xs s :
  (forall x a, f x a <> OutOfFuel) -> for_each f xs s <> OutOfFuel.
Proof.
  intros Hf. revert s. induction xs as [|x xs IH]; intros s; [done|].
  rewrite for_each_cons. specialize (Hf x s).
  destruct (f x s); try done. cbn [obind]. apply IH.
Qed.

Lemma wire_subscript_total data key : wire_subscript data key <> OutOfFuel.
Proof.
  destruct data as [l|q|items|entries], key as [z|s]; cbn; try done.
  - by destruct q.
  - by destruct q.
  - destruct (seq_index (length items) z); [|done]. by destruct (items !! n).
  - by destruct (wmap_get s entries).
Qed.

Lemma wire_assign_total data key v : wire_assign data key v <> OutOfFuel.
Proof.
  destruct data as [l|q|items|entries], key as [z|s]; cbn; try done.
  by destruct (seq_index (length items) z).
Qed.

Lemma json_getitem_total data p : getitem JsonReferenceLinkManager data p <> OutOfFuel.
Proof.
  revert data. induction p as [|key p IH]; intros data; [done|].
  cbn [getitem].
  assert (Hr : exists r, is_ref JsonReferenceLinkManager data = Ok r).
  { cbn. unfold JsonReference_is_ref. destruct data as [| | |[|[k v] [|]]]; eauto. }
  destruct Hr as [r ->]. cbn [obind]. unfold unlabel_destination.
  pose proof (wire_subscript_total (if r then data else data) key) as Hs.
  destruct (wire_subscript _ key); try done. cbn [obind]. apply IH.
Qed.

Lemma json_setitem_total data p v : setitem JsonReferenceLinkManager data p v <> OutOfFuel.
Proof.
  revert data. induction p as [|key p IH]; intros data; [done|].
  cbn [setitem].
  assert (Hr : exists r, is_ref JsonReferenceLinkManager data = Ok r).
  { cbn. unfold JsonReference_is_ref. destruct data as [| | |[|[k v'] [|]]]; eauto. }
  destruct Hr as [r ->]. cbn [obind]. unfold unlabel_destination.
  destruct p as [|key' p'].
  - apply wire_assign_total.
  - pose proof (wire_subscript_total (if r then data else data) key) as Hs.
    destruct (wire_subscript _ key) as [child| | |]; try done. cbn [obind].
    specialize (IH child). destruct (setitem _ child (key' :: p') v); try done.
    cbn [obind]. apply wire_assign_total.
Qed.

Lemma json_label_data_total lm data :
  label_data JsonReferenceLinkManager lm data <> OutOfFuel.
Proof.
  unfold label_data. apply for_each_total. intros [dest [i sources]] a.
  destruct dest as [|key dest]; [done|].
  pose proof (json_getitem_total a (key :: dest)) as Hg.
  destruct (getitem _ a (key :: dest)); try done. cbn [obind].
  apply json_setitem_total.
Qed.

Lemma unvisited_le N lm : unvisited N lm <= N.
Proof.
  unfold unvisited. etrans; [apply length_filter|]. by rewrite length_seq.
Qed.

Lemma walk_inv_start (h : heap) lm : walk_inv h (h, lm).
Proof.
  split; [done|]. cbn [fst]. intros l o Hl Ho.
  apply lookup_lt_Some in Ho. lia.
Qed.

(** The walk of [preserialize] over a heap without dangling locations ends
    within a nesting depth of twice the number of objects (plus three),
    cycles or not: it returns a tree or raises. *)
Theorem preserialize_terminates (self : Preserializer) (h : heap) (obj : loc)
    (fuel : nat) :
  json_like self -> closed h -> 2 * length h + 3 <= fuel ->
  terminates (preserialize fuel self h obj).
Proof.
  intros HJ Hclosed Hfuel. unfold terminates, preserialize.
  destruct (_preserialize_ends self HJ h Hclosed fuel obj [] (h, LinkManager_init))
    as [Hne _].
  { apply walk_inv_start. }
  { unfold fuel_ok. cbn [snd]. pose proof (unvisited_le (length h) LinkManager_init).
    case_decide; lia. }
  destruct (_preserialize fuel self obj [] (h, LinkManager_init))
    as [[data [h' lm]]| | |]; try done.
  cbn [obind]. destruct HJ as (-> & _).
  pose proof (json_label_data_total lm data) as Hl.
  by destruct (label_data JsonReferenceLinkManager lm data).
Qed.

Lemma parrot_heap_closed : closed parrot_heap.
Proof.
  intros l o Ho x Hx. cbn.
  destruct l as [|[|[|l]]]; cbn in Ho; try discriminate;
    injection Ho as <-; cbn in Hx.
  - by apply elem_of_nil in Hx.
  - apply elem_of_cons in Hx as [->|Hx]; [lia|].
    apply list_elem_of_singleton in Hx as ->. lia.
  - apply list_elem_of_singleton in Hx as ->. lia.
Qed.

(** The parrot and its egg, each the other's attribute: the walk ends. *)
Lemma preserialize_terminates_witness :
  terminates (preserialize 9 test_preserializer parrot_heap 1).
Proof.
  apply (preserialize_terminates test_preserializer parrot_heap 1 9).
  - exact test_preserializer_json_like.
  - exact parrot_heap_closed.
  - cbn. lia.
Defined.

(** ** The identity cache and the heap over a walk *)

(** The heap has only grown and every cached path is kept. *)
Definition walk_keeps (st st' : state) : Prop :=
  st.1 `prefix_of` st'.1 /\ _path_cache st.2 ⊆ _path_cache st'.2.

Lemma walk_keeps_refl st : walk_keeps st st.
Proof. split; done. Qed.

Lemma walk_keeps_trans a b c : walk_keeps a b -> walk_keeps b c -> walk_keeps a c.
Proof. intros [H1 H2] [H3 H4]. split; by etrans. Qed.

Lemma walk_keeps_record (h : heap) lm (obj : loc) p :
  path_cache_get obj lm = None -> walk_keeps (h, lm) (h, path_cache_add obj p lm).
Proof.
  intros Hc. split; [done|]. cbn [snd path_cache_add _path_cache].
  by apply insert_subseteq.
Qed.

Lemma _preserialize_keeps self fuel obj p st w st' :
  _preserialize fuel self obj p st = Ok (w, st') -> walk_keeps st st'.
Proof.
  apply (_preserialize_R self walk_keeps).
  - apply walk_keeps_refl.
  - apply walk_keeps_trans.
  - intros h lm o q _ Hc. by apply walk_keeps_record.
  - intros h lm o q dest _ _. split; done.
  - intros h lm d o args kwargs h' Hd. split; [|done].
    by apply deconstruct_heap in Hd.
Qed.

(** Over a walk that returns, the objects of the graph are left as they
    were (the heap only grows), every path the identity cache held is kept,
    and a tracked object is cached at the path of its first visit: the path
    it had, or the path of this visit. *)
Theorem first_visit_path_is_kept (self : Preserializer) (fuel : nat) (obj : loc)
    (p : path) (h : heap) (lm : LinkManager) (w : wire) (h' : heap)
    (lm' : LinkManager) :
  _preserialize fuel self obj p (h, lm) = Ok (w, (h', lm')) ->
  h `prefix_of` h' /\
  _path_cache lm ⊆ _path_cache lm' /\
  (tracked self h obj ->
   path_cache_get obj lm' = Some (default p (path_cache_get obj lm))).
Proof.
  intros H. pose proof (_preserialize_keeps _ _ _ _ _ _ _ H) as [Hp Hc].
  cbn [fst snd] in *. split; [done|]. split; [done|].
  intros (o & Ho & Ht). destruct fuel as [|n]; [discriminate|].
  destruct (path_cache_get obj lm) as [dest|] eqn:Hget; cbn [default].
  - rewrite (_preserialize_seen n self obj p h lm o dest Ho Ht Hget) in H.
    destruct (make_ref (link_manager_cls self) dest); try discriminate.
    cbn [obind] in H. injection H as _ _ <-. exact Hget.
  - assert (Hstep : exists body,
              body (h, path_cache_add obj p lm) = Ok (w, (h', lm')) /\
              forall st1 st2 w', body st1 = Ok (w', st2) -> walk_keeps st1 st2).
    { destruct (decide (type_of o = TList)) as [Hl|Hnl].
      - destruct o as [q|items| | | |]; try discriminate; [by destruct q|].
        rewrite (_preserialize_first_visit_list n self obj p h lm items Ho Hget) in H.
        exists (preserialize_list (_preserialize n self) p items). split; [done|].
        intros st1 st2 w'.
        apply (preserialize_list_R walk_keeps walk_keeps_refl walk_keeps_trans).
        intros ? ? ? ? ?. apply _preserialize_keeps.
      - destruct Ht as [Ht|[d Hd]]; [done|].
        rewrite (_preserialize_first_visit n self obj p h lm o d Ho Hnl Hd Hget) in H.
        exists (preserialize_mapping self (_preserialize n self) d obj p).
        split; [done|]. intros st1 st2 w'.
        apply (preserialize_mapping_R self walk_keeps walk_keeps_refl walk_keeps_trans).
        + intros h1 lm1 d1 o1 args kwargs h2 Hd1. split; [|done].
          by apply deconstruct_heap in Hd1.
        + intros ? ? ? ? ?. apply _preserialize_keeps. }
    destruct Hstep as (body & Hb & Hkeeps).
    apply Hkeeps in Hb as [_ Hsub]. cbn [snd path_cache_add _path_cache] in Hsub.
    unfold path_cache_get. eapply lookup_weaken; [|exact Hsub].
    apply lookup_insert_eq.
Qed.

(** The egg is met first at the path [from_egg] of the parrot. *)
Lemma first_visit_path_is_kept_witness :
  exists w lm',
    _preserialize 4 test_preserializer 1 [] (parrot_heap, LinkManager_init) =
      Ok (w, (parrot_heap, lm')) /\
    path_cache_get 1 lm' = Some [] /\
    path_cache_get 2 lm' = Some [KStr "from_egg"].
Proof.
  assert (E : exists w lm',
            _preserialize 4 test_preserializer 1 [] (parrot_heap, LinkManager_init) =
            Ok (w, (parrot_heap, lm'))).
  { eexists. eexists. vm_compute. reflexivity. }
  destruct E as (w & lm' & E). exists w, lm'. split; [exact E|].
  destruct (first_visit_path_is_kept _ _ _ _ _ _ _ _ _ E) as (_ & _ & Hroot).
  split.
  - apply Hroot. exists (OInstance "Parrot" [("is_dead"%string, 0); ("from_egg"%string, 2)]).
    split; [reflexivity|]. right. eexists. vm_compute. reflexivity.
  - vm_compute in E. injection E as _ <-. reflexivity.
Defined.

(** ** References: from a path to a pointer and back *)

Section PlainStrings.

Local Open Scope string_scope.

Lemma append_comm_cons a (s t : string) : String a (s ++ t) = String a s ++ t.
Proof. reflexivity. Qed.

Lemma append_empty_r (s : string) : s ++ EmptyString = s.
Proof. induction s as [|a s IH]; [done|]. change (String a (s ++ EmptyString) = String a s). by f_equal. Qed.

Lemma all_chars_mem p c s :
  p c = false -> Str.all_chars p s = true -> Str.mem_char c s = false.
Proof.
  intros Hc. induction s as [|a s IH]; [done|].
  cbn [Str.all_chars Str.mem_char]. intros [Ha Hs]%andb_prop.
  rewrite (IH Hs), orb_false_r.
  destruct (Ascii.eqb c a) eqn:E; [|done].
  apply Ascii.eqb_eq in E. subst a. congruence.
Qed.

Lemma all_chars_app p s t :
  Str.all_chars p (s ++ t) = Str.all_chars p s && Str.all_chars p t.
Proof.
  induction s as [|a s IH]; [done|].
  change (String a s ++ t) with (String a (s ++ t)). cbn [Str.all_chars].
  by rewrite IH, andb_assoc.
Qed.

Lemma all_chars_weaken (p q : ascii -> bool) s :
  (forall c, p c = true -> q c = true) ->
  Str.all_chars p s = true -> Str.all_chars q s = true.
Proof.
  intros Hpq. induction s as [|a s IH]; [done|]. cbn [Str.all_chars].
  intros [Ha Hs]%andb_prop. by rewrite (Hpq a Ha), (IH Hs).
Qed.

(** Nothing is replaced in a string that lacks the first character of the
    pattern. *)
Lemma replace_absent c old new s :
  Str.mem_char c s = false -> Str.replace (String c old) new s = s.
Proof.
  unfold Str.replace. induction s as [|a s IH]; [done|].
  cbn [Str.mem_char]. intros [Ha Hs]%orb_false_elim.
  cbn [Str.replace_from Str.is_prefix]. rewrite Ha. cbn [andb]. by rewrite (IH Hs).
Qed.

Lemma plain_not_slash s :
  Str.all_chars plain_char s = true -> Str.mem_char "/"%char s = false.
Proof. by apply all_chars_mem. Qed.

Lemma plain_not_tilde s :
  Str.all_chars plain_char s = true -> Str.mem_char "~"%char s = false.
Proof. by apply all_chars_mem. Qed.

Lemma escape_plain s :
  Str.all_chars plain_char s = true -> JsonPointer.escape s = s.
Proof.
  intros H. unfold JsonPointer.escape.
  rewrite (replace_absent "~"%char _ _ s) by by apply plain_not_tilde.
  by rewrite (replace_absent "/"%char _ _ s) by by apply plain_not_slash.
Qed.

Lemma unescape_plain s :
  Str.all_chars plain_char s = true -> JsonPointer.unescape s = s.
Proof.
  intros H. unfold JsonPointer.unescape.
  rewrite (replace_absent "~"%char _ _ s) by by apply plain_not_tilde.
  by rewrite (replace_absent "~"%char _ _ s) by by apply plain_not_tilde.
Qed.

(** Splitting after a piece without the separator. *)
Lemma split_app_clean sep s r :
  Str.mem_char sep s = false ->
  Str.split sep (s ++ r) =
  match Str.split sep r with
  | [] => [s]
  | p :: ps => (s ++ p) :: ps
  end.
Proof.
  induction s as [|a s IH].
  - intros _. change (EmptyString ++ r) with r. destruct r as [|b r]; [done|].
    cbn [Str.split]. destruct (Ascii.eqb b sep); [done|].
    by destruct (Str.split sep r).
  - cbn [Str.mem_char]. intros [Ha Hs]%orb_false_elim.
    change (String a s ++ r) with (String a (s ++ r)). cbn [Str.split].
    rewrite Ascii.eqb_sym in Ha. rewrite Ha, (IH Hs).
    by destruct (Str.split sep r).
Qed.

Lemma mem_char_app c s t :
  Str.mem_char c (s ++ t) = Str.mem_char c s || Str.mem_char c t.
Proof.
  induction s as [|a s IH]; [done|].
  change (String a s ++ t) with (String a (s ++ t)). cbn [Str.mem_char].
  by rewrite IH, orb_assoc.
Qed.

Lemma invalid_escape_no_tilde s :
  Str.mem_char "~"%char s = false -> JsonPointer.invalid_escape s = false.
Proof.
  induction s as [|a s IH]; [done|].
  cbn [Str.mem_char]. intros [Ha Hs]%orb_false_elim. specialize (IH Hs).
  destruct a as [[] [] [] [] [] [] [] []]; cbn in Ha; try discriminate;
    cbn [JsonPointer.invalid_escape]; exact IH.
Qed.

Lemma concat_cons_empty s ss :
  String.concat EmptyString (s :: ss) = s ++ String.concat EmptyString ss.
Proof.
  cbn [String.concat]. destruct ss as [|t ss]; [|done].
  by rewrite append_empty_r.
Qed.

(** The pointer of plain segments splits back into them. *)
Lemma pointer_of_segments segs :
  Forall (fun s => Str.all_chars plain_char s = true) segs ->
  let pointer := String.concat EmptyString (map (fun s => "/" ++ s) segs) in
  Str.mem_char "~"%char pointer = false /\
  Str.split "/"%char pointer = EmptyString :: segs.
Proof.
  induction 1 as [|s segs Hs _ IH]; [done|].
  cbn [map]. rewrite concat_cons_empty. destruct IH as [IH1 IH2].
  split.
  - change ("/" ++ s) with (String "/" s). rewrite <- append_comm_cons.
    cbn [Str.mem_char]. rewrite mem_char_app, IH1.
    by rewrite (plain_not_tilde s Hs).
  - change ("/" ++ s) with (String "/" s). rewrite <- append_comm_cons.
    cbn [Str.split Ascii.eqb Bool.eqb].
    rewrite (split_app_clean "/"%char s) by by apply plain_not_slash.
    rewrite IH2. by rewrite append_empty_r.
Qed.

End PlainStrings.

(** *** Numerals *)

Section Numerals.

Local Open Scope string_scope.

Lemma plain_not_space c : plain_char c = true -> Dec.is_space c = false.
Proof. destruct c as [[] [] [] [] [] [] [] []]; vm_compute; congruence. Qed.

Lemma word_plain c : Str.is_word c = true -> plain_char c = true.
Proof. unfold plain_char. by intros ->. Qed.

Lemma rstrip_plain s : Str.all_chars plain_char s = true -> Dec.rstrip s = s.
Proof.
  induction s as [|a s IH]; [done|]. cbn [Str.all_chars].
  intros [Ha Hs]%andb_prop. cbn [Dec.rstrip]. rewrite (IH Hs).
  destruct s; [|done]. by rewrite (plain_not_space a Ha).
Qed.

Lemma lstrip_plain s : Str.all_chars plain_char s = true -> Dec.lstrip s = s.
Proof.
  destruct s as [|a s]; [done|]. cbn [Str.all_chars].
  intros [Ha Hs]%andb_prop. cbn [Dec.lstrip]. by rewrite (plain_not_space a Ha).
Qed.

Lemma uint_string_plain d : Str.all_chars plain_char (NilEmpty.string_of_uint d) = true.
Proof. induction d; cbn [NilEmpty.string_of_uint Str.all_chars]; [done|by rewrite IHd..]. Qed.

Lemma digits_of_uint d b :
  d <> Nil \/ b = true -> Dec.digits (NilEmpty.string_of_uint d) b = Some d.
Proof.
  revert b. induction d; intros b Hb;
    [ destruct Hb as [?| ->]; done
    | cbn [NilEmpty.string_of_uint Dec.digits Ascii.eqb Bool.eqb];
      rewrite IHd by (by right); reflexivity .. ].
Qed.

Lemma parse_uint d :
  d <> Nil ->
  Dec.parse_int (NilEmpty.string_of_uint d) = Some (Z.of_uint d) /\
  Dec.parse_int (String "-" (NilEmpty.string_of_uint d)) = Some (- Z.of_uint d)%Z.
Proof.
  intros Hd. pose proof (uint_string_plain d) as Hp.
  pose proof (digits_of_uint d false (or_introl Hd)) as Hdig.
  split; unfold Dec.parse_int.
  - rewrite lstrip_plain, rstrip_plain by done.
    destruct d; [done|..]; cbn [NilEmpty.string_of_uint] in *; by rewrite Hdig.
  - assert (Hp' : Str.all_chars plain_char (String "-" (NilEmpty.string_of_uint d)) = true)
      by (cbn [Str.all_chars]; by rewrite Hp).
    rewrite lstrip_plain, rstrip_plain by done. by rewrite Hdig.
Qed.

Lemma parse_int_of_int i :
  Dec.parse_int (NilZero.string_of_int i) = Some (Z.of_int i).
Proof.
  destruct i as [d|d]; cbn [NilZero.string_of_int Z.of_int].
  - destruct d; [done|..];
      match goal with
      | |- Dec.parse_int (NilZero.string_of_uint ?x) = _ =>
          exact (proj1 (parse_uint x ltac:(discriminate)))
      end.
  - destruct d; [done|..];
      match goal with
      | |- Dec.parse_int (String _ (NilZero.string_of_uint ?x)) = _ =>
          exact (proj2 (parse_uint x ltac:(discriminate)))
      end.
Qed.

(** [int(str(z))] is [z]. *)
Lemma parse_int_str_of_Z z : Dec.parse_int (Dec.str_of_Z z) = Some z.
Proof. unfold Dec.str_of_Z. by rewrite parse_int_of_int, DecimalZ.of_to. Qed.

Lemma str_of_Z_plain z : Str.all_chars plain_char (Dec.str_of_Z z) = true.
Proof.
  unfold Dec.str_of_Z. destruct (Z.to_int z) as [d|d]; cbn [NilZero.string_of_int].
  - destruct d; try done; apply uint_string_plain.
  - cbn [Str.all_chars]. destruct d; try done; apply uint_string_plain.
Qed.

Lemma str_of_Z_not_empty z : Dec.str_of_Z z <> EmptyString.
Proof.
  unfold Dec.str_of_Z. destruct (Z.to_int z) as [d|d]; cbn [NilZero.string_of_int];
    [|done]. by destruct d.
Qed.

Lemma identifier_plain s :
  is_identifier s = true -> Str.all_chars plain_char s = true.
Proof.
  intros H. apply (all_chars_weaken Str.is_word); [apply word_plain|].
  by apply identifier_words.
Qed.

(** [int(s)] raises on an identifier. *)
Lemma parse_int_identifier s : is_identifier s = true -> Dec.parse_int s = None.
Proof.
  intros H. pose proof (identifier_plain s H) as Hp. unfold Dec.parse_int.
  rewrite lstrip_plain, rstrip_plain by done.
  destruct s as [|a s]; [done|]. cbn [is_identifier] in H.
  apply andb_prop in H as [Ha _].
  destruct a as [[] [] [] [] [] [] [] []]; try (vm_compute in Ha; discriminate Ha);
    cbn [Dec.digits Ascii.eqb Bool.eqb andb]; try reflexivity;
    destruct (Dec.digits s true); reflexivity.
Qed.

End Numerals.

(** [cast_int] on the two kinds of segment. *)
Lemma cast_int_str_of_Z z : cast_int (Dec.str_of_Z z) = KInt z.
Proof. unfold cast_int. by rewrite parse_int_str_of_Z. Qed.

Lemma cast_int_identifier s : is_identifier s = true -> cast_int s = KStr s.
Proof. intros H. unfold cast_int. by rewrite parse_int_identifier. Qed.

(** * References: a path comes back from the marker made for it *)

Lemma str_of_pkey_plain k :
  path_key_ok k -> Str.all_chars plain_char (str_of_pkey k) = true.
Proof.
  destruct k as [z|s]; cbn [path_key_ok str_of_pkey].
  - intros _. apply str_of_Z_plain.
  - intros [->|H]; [done|by apply identifier_plain].
Qed.

Lemma path_of_parts_segments dest :
  Forall path_key_ok dest ->
  JsonPointer.path_of_parts dest =
  String.concat EmptyString
    (map (fun s => ("/" ++ s)%string) (map str_of_pkey dest)).
Proof.
  intros H. unfold JsonPointer.path_of_parts. f_equal. rewrite map_map.
  induction H as [|k dest Hk _ IH]; [done|].
  cbn [map]. rewrite IH. f_equal.
  by rewrite (escape_plain _ (str_of_pkey_plain k Hk)).
Qed.

Lemma strip_and_cast dest :
  Forall path_key_ok dest ->
  map cast_int (filter (fun key => key <> DATA) (map str_of_pkey dest)) =
  filter (fun k => k <> KStr DATA) dest.
Proof.
  induction 1 as [|k dest Hk _ IH]; [done|].
  cbn [map]. rewrite !filter_cons. destruct k as [z|s]; cbn [str_of_pkey path_key_ok] in *.
  - rewrite decide_True by apply str_of_Z_not_empty.
    rewrite decide_True by done. cbn [map]. by rewrite cast_int_str_of_Z, IH.
  - destruct Hk as [->|Hs].
    + rewrite decide_False by (intros Hne; by apply Hne).
      rewrite decide_False by (intros Hne; by apply Hne). exact IH.
    + assert (s <> DATA) by (intros ->; discriminate).
      rewrite decide_True by done. rewrite decide_True by congruence.
      cbn [map]. by rewrite cast_int_identifier, IH.
Qed.

(** A path of indices, identifiers and the key of the positional arguments
    comes back from the reference made for it: the marker is recognised,
    its pointer splits into the segments of the path, and stripping the
    empty segments and casting the numerals gives the path without the key
    of the positional arguments, the one the decoder caches objects
    under. *)
Theorem json_reference_round_trip (h : heap) (dest : path) :
  Forall path_key_ok dest ->
  exists r parts,
    make_ref JsonReferenceLinkManager dest = Ok r /\
    is_ref JsonReferenceLinkManager r = Ok true /\
    ref_path JsonReferenceLinkManager h r = Ok parts /\
    parts = map str_of_pkey dest /\
    map cast_int (filter (fun key => key <> DATA) parts) =
    filter (fun k => k <> KStr DATA) dest.
Proof.
  intros Hok. eexists. exists (map str_of_pkey dest).
  split; [reflexivity|]. split; [reflexivity|]. split; [|split; [done|]].
  - cbn [ref_path JsonReferenceLinkManager JsonReference_ref_path
         make_ref JsonReference_make_ref].
    rewrite (path_of_parts_segments dest Hok).
    assert (Hsegs : Forall (fun s => Str.all_chars plain_char s = true)
                      (map str_of_pkey dest)).
    { apply Forall_fmap. eapply Forall_impl; [exact Hok|]. apply str_of_pkey_plain. }
    destruct (pointer_of_segments _ Hsegs) as [Htilde Hsplit].
    unfold JsonReference_ref_path. cbn [wmap_get String.eqb Ascii.eqb Bool.eqb].
    unfold WStr. cbn [wire_prim]. unfold JsonPointer.parts.
    rewrite (invalid_escape_no_tilde _ Htilde), Hsplit. f_equal.
    clear Hsplit Htilde. induction Hsegs as [|s segs Hs _ IH]; [done|].
    cbn [map]. by rewrite (unescape_plain s Hs), IH.
  - by apply strip_and_cast.
Qed.

(** The path of the second item of the third positional argument. *)
Lemma json_reference_round_trip_witness :
  exists r parts,
    make_ref JsonReferenceLinkManager [KStr DATA; KInt 2; KInt 1] = Ok r /\
    is_ref JsonReferenceLinkManager r = Ok true /\
    ref_path JsonReferenceLinkManager [] r = Ok parts /\
    parts = map str_of_pkey [KStr DATA; KInt 2; KInt 1] /\
    map cast_int (filter (fun key => key <> DATA) parts) =
    filter (fun k => k <> KStr DATA) [KStr DATA; KInt 2; KInt 1].
Proof.
  apply (json_reference_round_trip [] [KStr DATA; KInt 2; KInt 1]).
  repeat constructor.
Defined.
